(** * whisper-to-talk: the transcription server's text sanitizer, request
      pipeline, handler threads and the status reader

    A shallow embedding of
      - [TranscriptionServer.clean_transcription_text] and
        [StandaloneTranscriptionServer.clean_transcription_text]
        (the two bodies are the same text),
      - [transcribe_file] and [handle_client] of both servers,
      - the thread-per-connection accept loop of [start_server],
      - [TranscriberStatus.get_current_status] of the status-bar script,
      - [main], [start_server] and [stop_server] of the servers, with the
        PID file and the socket file,
      - [get_waybar_output] of the status-bar script,
      - [main] and [copy_to_clipboard] of the client,
      - [StandaloneTranscriptionServer.load_config], on a heap of the
        objects that [yaml.safe_load] builds.

    Python [str] values are modelled as lists of characters.  A character is
    an [ascii], read as the code point 0..255; the whitespace class, the
    decimal digits and [str.lower] are the ones Python uses on these code
    points. *)

From Stdlib Require Import Ascii String Arith Bool Lia ZArith QArith List.
Import ListNotations.

Open Scope char_scope.
Open Scope list_scope.
Open Scope nat_scope.

(** ** Python strings *)

Module PyStr.

Definition text := list ascii.

(** A string literal as a [text]. *)
Definition str (s : string) : text := list_ascii_of_string s.

(** [c.isspace()], which is also the class [\s] of [re] and the separator
    class of [str.split()] and [str.strip()]: TAB..CR, FS..US, SPACE, NEL
    and NBSP are the whitespace code points below 256. *)
Definition is_space (c : ascii) : bool :=
  let n := nat_of_ascii c in
  ((9 <=? n) && (n <=? 13)) || ((28 <=? n) && (n <=? 32))
  || (n =? 133) || (n =? 160).

(** The class [\d] of [re]: the decimal digits below 256 are 0..9. *)
Definition is_digit (c : ascii) : bool :=
  let n := nat_of_ascii c in (48 <=? n) && (n <=? 57).

(** [c.lower()]: A..Z and the Latin-1 capitals (all of 192..222 but the
    multiplication sign 215) move up by 32. *)
Definition lower_char (c : ascii) : ascii :=
  let n := nat_of_ascii c in
  if ((65 <=? n) && (n <=? 90))
     || ((192 <=? n) && (n <=? 222) && negb (n =? 215))
  then ascii_of_nat (n + 32) else c.

Definition lower (s : text) : text := map lower_char s.

Definition text_eqb (a b : text) : bool :=
  if list_eq_dec ascii_dec a b then true else false.

Definition is_empty {A : Type} (l : list A) : bool :=
  match l with [] => true | _ => false end.

(** [s.lstrip()], [s.rstrip()], [s.strip()]. *)
Fixpoint lstrip (s : text) : text :=
  match s with
  | [] => []
  | c :: s' => if is_space c then lstrip s' else s
  end.

Definition rstrip (s : text) : text := rev (lstrip (rev s)).

Definition strip (s : text) : text := rstrip (lstrip s).

(** Does [s] begin with a character that is not whitespace? *)
Definition starts_word (s : text) : bool :=
  match s with
  | [] => false
  | c :: _ => negb (is_space c)
  end.

(** Put [c] in front of the first word of [ws]. *)
Definition cons_head (c : ascii) (ws : list text) : list text :=
  match ws with
  | [] => [[c]]
  | w :: ws' => (c :: w) :: ws'
  end.

(** [s.split()]: the maximal runs of non-whitespace characters, in order. *)
Fixpoint split (s : text) : list text :=
  match s with
  | [] => []
  | c :: s' =>
      if is_space c then split s'
      else if starts_word s' then cons_head c (split s')
      else [c] :: split s'
  end.

(** [' '.join(ws)]. *)
Fixpoint join (ws : list text) : text :=
  match ws with
  | [] => []
  | w :: ws' =>
      match ws' with
      | [] => w
      | _ :: _ => w ++ " " :: join ws'
      end
  end.

(** [l[a:b]] for indices [0 <= a] and [0 <= b]. *)
Definition slice {A : Type} (a b : nat) (l : list A) : list A :=
  firstn (b - a) (skipn a l).

Definition has_space (s : text) : bool :=
  existsb (fun c => Ascii.eqb c " ") s.

(** [s.rsplit(' ', 1)[0]]: what stands before the last SPACE of [s], or
    all of [s] when it has none. *)
Fixpoint rsplit_head (s : text) : text :=
  match s with
  | [] => []
  | c :: s' =>
      if has_space s' then c :: rsplit_head s'
      else if Ascii.eqb c " " then [] else s
  end.

(** [span p s]: the longest prefix of [s] whose characters satisfy [p],
    and the rest. *)
Fixpoint span (p : ascii -> bool) (s : text) : text * text :=
  match s with
  | [] => ([], [])
  | c :: s' =>
      if p c then let (a, b) := span p s' in (c :: a, b) else ([], s)
  end.

End PyStr.

Import PyStr.

(** ** The text sanitizer *)

Module Sanitizer.

(** *** The numeric-run strip, [re.sub] with the pattern
    [( \d+ , \s* ){10,}] (written here with blanks between its atoms)

    The three atoms of the group take disjoint classes (digits, the
    comma, whitespace), so the backtracking matcher has a single way
    through a text: all the digits, a comma, all the whitespace. *)

(** One pass through the group [\d+,\s*] at the head of [s]: the text
    after it. *)
Definition match_group (s : text) : option text :=
  match span is_digit s with
  | (_ :: _, c :: r) => if Ascii.eqb c "," then Some (lstrip r) else None
  | _ => None
  end.

(** The greedy repetition of the group: how many times it matched and
    the text after the last match.  A group takes at least two
    characters, so [fuel = length s] never runs out. *)
Fixpoint match_groups (fuel : nat) (s : text) : nat * text :=
  match fuel with
  | 0 => (0, s)
  | S f =>
      match match_group s with
      | Some r => let (k, r') := match_groups f r in (S k, r')
      | None => (0, s)
      end
  end.

(** The whole pattern, ten or more rounds of the group, anchored at
    the head of [s]. *)
Definition match_numeric_run (s : text) : option text :=
  let (k, r) := match_groups (length s) s in
  if 10 <=? k then Some r else None.

(** [re.sub(pattern, '', s)]: the leftmost match is deleted and the scan
    goes on behind it; a character no match starts at is copied. *)
Fixpoint sub_runs (fuel : nat) (s : text) : text :=
  match fuel with
  | 0 => s
  | S f =>
      match match_numeric_run s with
      | Some r => sub_runs f r
      | None =>
          match s with
          | [] => []
          | c :: s' => c :: sub_runs f s'
          end
      end
  end.

Definition strip_numeric_runs (s : text) : text := sub_runs (length s) s.

(** *** The phrase-repetition scan *)

(** [if phrase and len(phrase.strip()) > 10]. *)
Definition eligible (phrase : text) : bool :=
  negb (is_empty phrase) && (10 <? length (strip phrase)).

(** The [while pos + phrase_len <= len(words)] loop; it leaves with
    [repetitions].  [pos] grows by [phrase_len] in every round. *)
Fixpoint count_repetitions (fuel : nat) (phrase : text) (phrase_len : nat)
         (words : list text) (pos repetitions : nat) : nat :=
  match fuel with
  | 0 => repetitions
  | S f =>
      if pos + phrase_len <=? length words then
        let next_phrase := join (slice pos (pos + phrase_len) words) in
        if text_eqb (lower phrase) (lower next_phrase)
        then count_repetitions f phrase phrase_len words
                               (pos + phrase_len) (S repetitions)
        else repetitions
      else repetitions
  end.

(** The body of [for i in range(...)] at one [i]: [Some] of the spliced
    word list when the body reaches its [break]. *)
Definition try_position (phrase_len : nat) (words : list text) (i : nat)
  : option (list text) :=
  let phrase := join (slice i (i + phrase_len) words) in
  if eligible phrase then
    let repetitions :=
      count_repetitions (length words) phrase phrase_len words
                        (i + phrase_len) 1 in
    if 3 <? repetitions then
      let end_pos := i + phrase_len + (repetitions - 1) * phrase_len in
      Some (firstn (i + phrase_len) words ++ skipn end_pos words)
    else None
  else None.

(** [for i in range(len(words) - phrase_len * 3)]: the range is taken
    once, from the words the loop starts with, and the loop is left at
    the first splice. *)
Fixpoint scan_positions (phrase_len : nat) (words : list text)
         (positions : list nat) : list text :=
  match positions with
  | [] => words
  | i :: rest =>
      match try_position phrase_len words i with
      | Some words' => words'
      | None => scan_positions phrase_len words rest
      end
  end.

Definition collapse_phrase_len (words : list text) (phrase_len : nat)
  : list text :=
  scan_positions phrase_len words (seq 0 (length words - phrase_len * 3)).

(** [if len(words) > 20: for phrase_len in range(3, 8): ...]. *)
Definition collapse_repetitions (words : list text) : list text :=
  if 20 <? length words
  then fold_left collapse_phrase_len (seq 3 5) words
  else words.

(** *** The length limit *)

Definition max_length : nat := 1000.

Definition ellipsis : text := str "...".

Definition limit_length (t : text) : text :=
  if max_length <? length t
  then rsplit_head (firstn max_length t) ++ ellipsis
  else t.

(** *** [clean_transcription_text] *)

(** What follows the guard on empty text. *)
Definition clean_words (t : text) : list text :=
  collapse_repetitions (split (strip_numeric_runs t)).

Definition clean_transcription_text (t : text) : text :=
  if is_empty t || is_empty (strip t) then []
  else strip (limit_length (join (clean_words t))).

End Sanitizer.

Import Sanitizer.

(** ** The transcription pipeline and the request handler *)

Module Pipeline.

(** The values the handlers put into a response. *)
Inductive value : Type :=
| VStr (s : text)
| VInt (z : Z)
| VFloat (q : Q).

(** A response is the [dict] handed to [json.dumps], in insertion order. *)
Definition response : Type := list (string * value).

(** What a call of the model's [transcribe] can come back with: the
    texts of the segments, a value of an unexpected shape, or an
    exception [e] with [str(e) = msg]. *)
Inductive model_result : Type :=
| Segments (segs : list text)
| Unexpected (unpack_msg : text)
| Raises (msg : text).

(** The surroundings of a handler: the filesystem ([None] for a path
    that does not exist, the size in bytes otherwise), the loaded model,
    the wall clock as the sequence of its readings, and the settings the
    [info] action reports. *)
Record world : Type := {
  files : text -> option Z;
  model : text -> model_result;
  clock : nat -> Q;
  model_size : text;
  compute_type : text;
  cuda_available : bool;
  exists_type_error : text
}.

(** What a handler changes: how often the clock was read, and the
    files the model was called on, oldest first. *)
Record state : Type := {
  clock_reads : nat;
  model_calls : list text
}.

Definition M (A : Type) : Type := state -> A * state.

Definition ret {A : Type} (a : A) : M A := fun st => (a, st).

Definition bind {A B : Type} (m : M A) (k : A -> M B) : M B :=
  fun st => let (a, st') := m st in k a st'.

Notation "x <- m ;; k" := (bind m (fun x => k))
  (at level 61, m at next level, right associativity).

(** [time.time()]. *)
Definition time_time (w : world) : M Q :=
  fun st => (clock w (clock_reads st),
             {| clock_reads := S (clock_reads st);
                model_calls := model_calls st |}).

(** [self.whisper_inf.transcribe(f)], [self.model.transcribe(f, ...)]. *)
Definition model_transcribe (w : world) (f : text) : M model_result :=
  fun st => (model w f,
             {| clock_reads := clock_reads st;
                model_calls := model_calls st ++ [f] |}).

Definition small_file_threshold : Z := 1000.

Definition error_response (msg : text) : response :=
  [("error"%string, VStr msg)].

Definition text_response (t : text) (duration : value) : response :=
  [("text"%string, VStr t); ("duration"%string, duration)].

(** [" ".join([segment.text.strip() for segment in segments])]. *)
Definition segments_text (segs : list text) : text :=
  join (map strip segs).

(** [TranscriptionServer.transcribe_file]. *)
Definition transcribe_file (w : world) (audio_file : text) : M response :=
  match files w audio_file with
  | None =>
      ret (error_response (str "Audio file not found: " ++ audio_file))
  | Some file_size =>
      if (file_size <? small_file_threshold)%Z
      then ret (text_response [] (VInt 0))
      else
        start_time <- time_time w ;;
        result <- model_transcribe w audio_file ;;
        match result with
        | Raises msg => ret (error_response msg)
        | Segments segs =>
            let t := if is_empty segs then []
                     else clean_transcription_text (segments_text segs) in
            now <- time_time w ;;
            ret (text_response t (VFloat (now - start_time)))
        | Unexpected _ =>
            now <- time_time w ;;
            ret (text_response [] (VFloat (now - start_time)))
        end
  end.

(** [StandaloneTranscriptionServer.transcribe_file]: the guards are the
    same; the result is unpacked at once, which raises on a value of
    another shape. *)
Definition transcribe_file_standalone (w : world) (audio_file : text)
  : M response :=
  match files w audio_file with
  | None =>
      ret (error_response (str "Audio file not found: " ++ audio_file))
  | Some file_size =>
      if (file_size <? small_file_threshold)%Z
      then ret (text_response [] (VInt 0))
      else
        start_time <- time_time w ;;
        result <- model_transcribe w audio_file ;;
        match result with
        | Raises msg => ret (error_response msg)
        | Unexpected msg => ret (error_response msg)
        | Segments segs =>
            let t := clean_transcription_text (segments_text segs) in
            now <- time_time w ;;
            ret (text_response t (VFloat (now - start_time)))
        end
  end.

(** The payload of a connection after [recv], [decode] and
    [json.loads]: an exception on the way ([str(e) = msg]), or an object
    with what [request.get("action")] and [request.get("file")] give. *)
Inductive payload : Type :=
| Garbage (msg : text)
| Object (action : option text) (file : option text).

Definition action_is (action : option text) (name : string) : bool :=
  match action with
  | Some a => text_eqb a (str name)
  | None => false
  end.

(** The dispatch both servers share; [info] is the standalone server's
    extra action.  A request without a file reaches [os.path.exists(None)],
    whose [TypeError] the handler turns into an error response. *)
Definition dispatch (transcribe : text -> M response)
           (info : option response) (w : world) (p : payload)
  : M response :=
  match p with
  | Garbage msg => ret (error_response msg)
  | Object action file =>
      if action_is action "transcribe" then
        match file with
        | Some f => transcribe f
        | None => ret (error_response (exists_type_error w))
        end
      else if action_is action "ping" then
        ret [("status"%string, VStr (str "ready"))]
      else
        match info with
        | Some r =>
            if action_is action "info" then ret r
            else ret (error_response (str "Unknown action"))
        | None => ret (error_response (str "Unknown action"))
        end
  end.

Definition handle_client (w : world) (p : payload) : M response :=
  dispatch (transcribe_file w) None w p.

Definition model_info (w : world) : response :=
  [("model"%string, VStr (model_size w));
   ("device"%string,
    VStr (if cuda_available w then str "cuda" else str "cpu"));
   ("compute_type"%string, VStr (compute_type w))].

Definition handle_client_standalone (w : world) (p : payload)
  : M response :=
  dispatch (transcribe_file_standalone w) (Some (model_info w)) w p.

Definition initial : state := {| clock_reads := 0; model_calls := [] |}.

(** The shapes of a response. *)
Definition has_key (k : string) (r : response) : bool :=
  existsb (fun kv => String.eqb (fst kv) k) r.

Definition is_error (r : response) : bool := has_key "error" r.

Definition is_success (r : response) : bool := has_key "text" r.

End Pipeline.

(** ** The handler threads of [start_server]

    The accept loop starts a thread per connection and goes back to
    [accept]; no lock, queue or semaphore stands between a handler and the
    model.  A handler that has to ask the model is seen at three points:
    started, inside the model's [transcribe], done. *)

Module Threads.

Import Pipeline.

Inductive request : Type :=
| Transcribe (file : text)
| Ping
| OtherAction.

Inductive thread : Type :=
| Started (r : request)
| InModel (file : text)
| Done.

Definition pool : Type := list thread.

(** The two guards of [transcribe_file] that come before the model. *)
Definition needs_model (w : world) (f : text) : bool :=
  match files w f with
  | Some size => negb (size <? small_file_threshold)%Z
  | None => false
  end.

(** One move of a handler thread. *)
Definition advance (w : world) (t : thread) : thread :=
  match t with
  | Started (Transcribe f) => if needs_model w f then InModel f else Done
  | Started Ping => Done
  | Started OtherAction => Done
  | InModel _ => Done
  | Done => Done
  end.

(** What can happen next: the accept loop takes a connection and starts
    its thread, or the scheduler lets thread [i] make a move. *)
Inductive event : Type :=
| Accept (r : request)
| Run (i : nat).

Fixpoint advance_nth (w : world) (i : nat) (p : pool) : pool :=
  match p, i with
  | [], _ => []
  | t :: p', 0 => advance w t :: p'
  | t :: p', S j => t :: advance_nth w j p'
  end.

Definition exec_event (w : world) (p : pool) (e : event) : pool :=
  match e with
  | Accept r => p ++ [Started r]
  | Run i => advance_nth w i p
  end.

Definition exec (w : world) (es : list event) (p : pool) : pool :=
  fold_left (exec_event w) es p.

Definition in_model (t : thread) : bool :=
  match t with InModel _ => true | _ => false end.

(** How many threads are inside the model's [transcribe]. *)
Definition in_model_count (p : pool) : nat :=
  List.length (filter in_model p).

End Threads.

(** ** The status reader of the status-bar script *)

Module Waybar.

(** [/tmp/whisper_server.pid] as [is_server_running] meets it. *)
Inductive pid_file : Type :=
| NoPidFile
| BadPid
| Pid (pid : Z).

(** [/tmp/whisper_status.json] as [get_current_status] meets it: not
    there, not readable as JSON, or an object with its ["state"] and
    ["timestamp"] entries when it has them. *)
Inductive status_file : Type :=
| NoStatusFile
| Unreadable
| StatusRecord (state : option text) (timestamp : option Q).

Record env : Type := {
  server_pid_file : pid_file;
  alive : Z -> bool;
  recording_file_exists : bool;
  status : status_file;
  now : Q
}.






End Waybar.

(** ** Vocabulary of the statements *)

Module Vocabulary.

(** A word as [str.split()] gives it: not empty, no whitespace in it. *)
Definition is_word (w : text) : bool :=
  negb (is_empty w) && forallb (fun c => negb (is_space c)) w.

Definition words_ok (ws : list text) : bool := forallb is_word ws.

(** The number of words of [s]; [in_word] says that the character before
    [s] belongs to a word. *)
Fixpoint word_count (in_word : bool) (s : text) : nat :=
  match s with
  | [] => 0
  | c :: s' =>
      if is_space c then word_count false s'
      else (if in_word then 0 else 1) + word_count true s'
  end.

(** [subseq a b]: [a] is [b] with some of its characters deleted. *)
Inductive subseq : text -> text -> Prop :=
| subseq_nil : subseq [] []
| subseq_keep : forall c a b, subseq a b -> subseq (c :: a) (c :: b)
| subseq_drop : forall c a b, subseq a b -> subseq a (c :: b).

(** [n] copies of a phrase, one after the other. *)
Definition times {A : Type} (n : nat) (phrase : list A) : list A :=
  concat (repeat phrase n).

Definition no_comma (s : text) : bool :=
  forallb (fun c => negb (Ascii.eqb c ",")) s.





(** Mutual exclusion of the model: whatever the accept loop and the
    scheduler do, at most one thread is inside the model's [transcribe]. *)
Definition serialized (w : Pipeline.world) : Prop :=
  forall es : list Threads.event,
    Threads.in_model_count (Threads.exec w es []) <= 1.

End Vocabulary.

Import Vocabulary.

(** ** Concrete inputs *)

Module Examples.

Import Pipeline.

(** A filesystem with a silent capture of 512 bytes and two recordings;
    any other path does not exist. *)
Definition example_files (path : text) : option Z :=
  if text_eqb path (str "/tmp/small.wav") then Some 512%Z
  else if text_eqb path (str "/tmp/a.wav") then Some 48000%Z
  else if text_eqb path (str "/tmp/b.wav") then Some 96000%Z
  else None.

Definition example_world : world :=
  {| files := example_files;
     model := fun _ => Segments [str " hello world "];
     clock := fun n => inject_Z (Z.of_nat n);
     model_size := str "large-v3-turbo";
     compute_type := str "float32";
     cuda_available := false;
     exists_type_error := str "stat: path should be string, bytes, os.PathLike or integer, not NoneType" |}.


Definition words_of (s : string) : list text := split (str s).





(** A single word of 1001 characters. *)
Definition long_word : text := repeat "a" 1001.

(** 44 words, of 1, 2, ..., 44 characters: 1033 characters when
    joined, and no two words the same. *)
Definition long_sentence : text := join (map (repeat "a") (seq 1 44)).

(** A phrase of four words five times in a row: 20 words. *)
Definition twenty_words : text :=
  join (times 5 (words_of "thanks for watching everyone")).


End Examples.

(** ** More vocabulary *)

Module Words.

(** [sublist a b]: [a] is [b] with some of its elements left out. *)
Inductive sublist {A : Type} : list A -> list A -> Prop :=
| sublist_nil : sublist [] []
| sublist_keep : forall x a b, sublist a b -> sublist (x :: a) (x :: b)
| sublist_drop : forall x a b, sublist a b -> sublist a (x :: b).

(** The characters a numeric run is made of. *)
Definition numeric_char (c : ascii) : bool :=
  is_digit c || Ascii.eqb c "," || is_space c.

Definition commas (s : text) : nat :=
  length (filter (fun c => Ascii.eqb c ",") s).

(** The phrase of [l] words at position [i], as the scan compares it. *)
Definition window (l i : nat) (ws : list text) : text :=
  lower (join (slice i (i + l) ws)).

(** Do four windows of [l] words stand in a row at position [i], equal
    when case is ignored? *)
Definition stands_four_times (l : nat) (ws : list text) (i : nat) : bool :=
  (i + 4 * l <=? length ws)
  && text_eqb (window l i ws) (window l (i + l) ws)
  && text_eqb (window l i ws) (window l (i + 2 * l) ws)
  && text_eqb (window l i ws) (window l (i + 3 * l) ws).

(** Does the body of the scan cut at position [i] for window length [l]? *)
Definition fires (l : nat) (ws : list text) (i : nat) : bool :=
  eligible (join (slice i (i + l) ws)) && stands_four_times l ws i.


End Words.

Import Words.

(** ** The standalone server's model set-up *)

Module Startup.

Import Pipeline.

(** [result.get(k)] on a response. *)
Fixpoint get_value (k : string) (r : response) : option value :=
  match r with
  | [] => None
  | (k', v) :: r' => if String.eqb k' k then Some v else get_value k r'
  end.

(** The device [initialize_model] loads the model on:
    ["cuda"] if [torch.cuda.is_available()] and the compute type is
    ['float16'], ["cpu"] otherwise. *)
Definition load_device (w : world) : text :=
  if cuda_available w && text_eqb (compute_type w) (str "float16")
  then str "cuda" else str "cpu".

(** How many of the four shapes of a response [r] has: an error, a
    transcription, the answer to a ping, the answer to [info]. *)
Definition shapes (r : response) : nat :=
  (if has_key "error" r then 1 else 0)
  + (if has_key "text" r then 1 else 0)
  + (if has_key "status" r then 1 else 0)
  + (if has_key "model" r then 1 else 0).

End Startup.

Import Startup.

(** ** Start and stop of the server: [main], [start_server],
    [stop_server] (the two servers have the same text here) *)

Module Lifecycle.

(** The two files of the server: is there a file at the socket path, and
    what is in the PID file. *)
Record files : Type := {
  socket_file : bool;
  pid_file : Waybar.pid_file
}.

(** What [os.kill(pid, sig)] does for the signals 0 and 15: it returns,
    or raises [ProcessLookupError] or [PermissionError]. *)
Inductive kill_result : Type :=
| Delivered
| NoSuchProcess
| NotPermitted.

Record env : Type := {
  kill : Z -> kill_result;
  own_pid : Z;
  model_loads : bool
}.

(** The lines [main] prints. *)
Inductive message : Type :=
| StoppedServer (pid : Z)
| ServerNotRunning
| ServerAlreadyRunning (pid : Z).

(** How [main] goes on: it returns, it leaves with [sys.exit(code)], an
    exception nothing catches ends it, or the accept loop is running. *)
Inductive ending : Type :=
| Returned
| Exited (code : Z)
| ValueError
| PermissionError
| Serving.

Record outcome : Type := {
  printed : list message;
  files_after : files;
  terminated : list Z;
  ended : ending
}.

(** [stop_server]: the two [unlink]s stand in one [try]; when there is no
    socket file the first one raises [FileNotFoundError] and the second
    one is not reached. *)
Definition stop_server (fs : files) : files :=
  if socket_file fs
  then {| socket_file := false; pid_file := Waybar.NoPidFile |}
  else fs.

(** [start_server] up to its loop: a socket file left behind is
    unlinked, the socket is bound, the PID file is written. *)
Definition start_server (e : env) (fs : files) : files :=
  {| socket_file := true; pid_file := Waybar.Pid (own_pid e) |}.

Definition remove_pid_file (fs : files) : files :=
  {| socket_file := socket_file fs; pid_file := Waybar.NoPidFile |}.

(** [main] for [sys.argv[1] == "stop"]. *)
Definition main_stop (e : env) (fs : files) : outcome :=
  match pid_file fs with
  | Waybar.NoPidFile =>
      {| printed := [ServerNotRunning]; files_after := fs;
         terminated := []; ended := Returned |}
  | Waybar.BadPid =>
      {| printed := []; files_after := fs;
         terminated := []; ended := ValueError |}
  | Waybar.Pid pid =>
      match kill e pid with
      | Delivered =>
          {| printed := [StoppedServer pid]; files_after := fs;
             terminated := [pid]; ended := Returned |}
      | NoSuchProcess =>
          {| printed := [ServerNotRunning];
             files_after := remove_pid_file fs;
             terminated := []; ended := Returned |}
      | NotPermitted =>
          {| printed := []; files_after := fs;
             terminated := []; ended := PermissionError |}
      end
  end.

(** [main] from the construction of the server on. *)
Definition main_serve (e : env) (fs : files) : outcome :=
  if model_loads e
  then {| printed := []; files_after := start_server e fs;
          terminated := []; ended := Serving |}
  else {| printed := []; files_after := fs;
          terminated := []; ended := Exited 1 |}.

(** [main] without [stop], up to the accept loop. *)
Definition main_start (e : env) (fs : files) : outcome :=
  match pid_file fs with
  | Waybar.NoPidFile => main_serve e fs
  | Waybar.BadPid =>
      {| printed := []; files_after := fs;
         terminated := []; ended := ValueError |}
  | Waybar.Pid pid =>
      match kill e pid with
      | Delivered =>
          {| printed := [ServerAlreadyRunning pid]; files_after := fs;
             terminated := []; ended := Returned |}
      | NoSuchProcess => main_serve e (remove_pid_file fs)
      | NotPermitted =>
          {| printed := []; files_after := fs;
             terminated := []; ended := PermissionError |}
      end
  end.

(** [main]: [args] is [sys.argv[1:]]. *)
Definition main (args : list text) (e : env) (fs : files) : outcome :=
  match args with
  | a :: _ => if text_eqb a (str "stop") then main_stop e fs
              else main_start e fs
  | [] => main_start e fs
  end.

(** The [finally] of [main] when [KeyboardInterrupt] ends the loop. *)
Definition interrupted (o : outcome) : files :=
  match ended o with
  | Serving => stop_server (files_after o)
  | _ => files_after o
  end.

End Lifecycle.

(** ** The status-bar script's output *)

Module StatusBar.



(** [table[k]]; [None] stands for the [KeyError]. *)
Fixpoint lookup {V : Type} (k : text) (table : list (text * V)) : option V :=
  match table with
  | [] => None
  | (k', v) :: table' => if text_eqb k' k then Some v else lookup k table'
  end.


End StatusBar.

(** ** The client *)

Module Client.

Import Pipeline.

(** How [main] ends: [sys.exit(code)] (a return is code 0), or an
    exception nothing catches: [AttributeError] from [text.strip()] on a
    text that is no [str], [ValueError] from formatting a duration that
    is a [str]. *)
Inductive status : Type :=
| Exit (code : Z)
| AttributeError
| ValueError.

(** What a run of the client leaves: the lines printed, the texts
    handed to [wl-copy], the files the server was asked about. *)
Record outcome : Type := {
  stdout : list text;
  clipboard : list text;
  requests : list text;
  ended : status
}.

(** The filesystem, and what [transcribe_with_server] returns for a
    file: the server's answer, or [{"error": str(e)}] after an exception
    on the way. *)
Record env : Type := {
  files : text -> option Z;
  reply : text -> response
}.

Definition usage : text := str "Usage: python transcribe_client.py <audio_file>".

Definition no_speech : text := str "(no speech detected)".

(** [main] behind [result = transcribe_with_server(audio_file)]. *)
Definition report (f : text) (result : response) : outcome :=
  if has_key "error" result then
    {| stdout := []; clipboard := []; requests := [f]; ended := Exit 1 |}
  else
    let text := match get_value "text" result with
                | Some v => v
                | None => VStr []
                end in
    let duration := match get_value "duration" result with
                    | Some v => v
                    | None => VInt 0
                    end in
    match text with
    | VStr t =>
        if is_empty (strip t) then
          {| stdout := [no_speech]; clipboard := []; requests := [f];
             ended := Exit 0 |}
        else
          {| stdout := [t]; clipboard := [t]; requests := [f];
             ended := match duration with
                      | VStr _ => ValueError
                      | _ => Exit 0
                      end |}
    | _ =>
        {| stdout := []; clipboard := []; requests := [f];
           ended := AttributeError |}
    end.

(** [main]: [args] is [sys.argv[1:]]. *)
Definition main (e : env) (args : list text) : outcome :=
  match args with
  | [f] =>
      match files e f with
      | None =>
          {| stdout := []; clipboard := []; requests := [];
             ended := Exit 1 |}
      | Some file_size =>
          if (file_size <? 1000)%Z then
            {| stdout := [no_speech]; clipboard := []; requests := [];
               ended := Exit 0 |}
          else report f (reply e f)
      end
  | _ =>
      {| stdout := [usage]; clipboard := []; requests := [];
         ended := Exit 1 |}
  end.


End Client.

(** ** The configuration of the standalone server: [load_config] *)

Module Config.

(** What [yaml.safe_load] builds is a graph of objects: an anchor of the
    document is one object under two names, and the merge writes into
    the objects it is given.  So the objects live in a heap and are
    named by their place in it. *)
Definition ref : Type := nat.

(** An object, as far as [in], [obj[k]] and [obj[k] = v] with a string
    [k] tell objects apart: a mapping, with its string keys in the order
    of insertion (a key that is no string is never asked for and never
    written); a sequence or a set; a string; a truth value; and every
    other scalar (null, a number, a date, bytes), on which [in] raises. *)
Inductive object : Type :=
| ODict (items : list (text * ref))
| OSeq (elems : list ref)
| OStr (s : text)
| OBool (b : bool)
| OOther.

Definition heap : Type := list object.

(** [config.yaml] beside the script: not there; there, but [open] or
    [yaml.safe_load] raises; or loaded, as the heap of the document and
    the place of its top object. *)
Inductive config_file : Type :=
| Missing
| Unloadable
| Loaded (h : heap) (root : ref).

Fixpoint update {A : Type} (l : list A) (n : nat) (a : A) : list A :=
  match l, n with
  | [], _ => []
  | _ :: l', O => a :: l'
  | x :: l', S n' => x :: update l' n' a
  end.

Fixpoint is_prefix (p s : text) : bool :=
  match p, s with
  | [], _ => true
  | _ :: _, [] => false
  | a :: p', b :: s' => Ascii.eqb a b && is_prefix p' s'
  end.

(** [p in s] on two strings. *)
Fixpoint is_substring (p s : text) : bool :=
  is_prefix p s
  || match s with
     | [] => false
     | _ :: s' => is_substring p s'
     end.

Definition has_item (k : text) (items : list (text * ref)) : bool :=
  match StatusBar.lookup k items with
  | Some _ => true
  | None => false
  end.

(** [d[k] = v] on the items of a mapping: a key that is there keeps its
    place, a new one goes to the end. *)
Fixpoint set_item (k : text) (v : ref) (items : list (text * ref))
  : list (text * ref) :=
  match items with
  | [] => [(k, v)]
  | (k', v') :: items' =>
      if text_eqb k' k then (k', v) :: items'
      else (k', v') :: set_item k v items'
  end.

(** [k in obj]; [None] stands for the [TypeError] of an object that is
    no container. *)
Definition contains (h : heap) (r : ref) (k : text) : option bool :=
  match nth_error h r with
  | Some (ODict items) => Some (has_item k items)
  | Some (OSeq elems) =>
      Some (existsb (fun x => match nth_error h x with
                              | Some (OStr s) => text_eqb s k
                              | _ => false
                              end) elems)
  | Some (OStr s) => Some (is_substring k s)
  | _ => None
  end.

(** [obj[k]]; [None] stands for the [KeyError] of a mapping and the
    [TypeError] of every other object, which has no string index. *)
Definition getitem (h : heap) (r : ref) (k : text) : option ref :=
  match nth_error h r with
  | Some (ODict items) => StatusBar.lookup k items
  | _ => None
  end.

(** [obj[k] = v]; [None] stands for the [TypeError] of an object that
    is no mapping. *)
Definition setitem (h : heap) (r : ref) (k : text) (v : ref)
  : option heap :=
  match nth_error h r with
  | Some (ODict items) => Some (update h r (ODict (set_item k v items)))
  | _ => None
  end.

(** The end of a piece of the [try] block: it went through, or it
    raised; either way the heap is what the writes so far made of it. *)
Inductive outcome : Type :=
| Done (h : heap)
| Raised (h : heap).

Fixpoint for_each {A : Type} (body : A -> heap -> outcome) (xs : list A)
  (h : heap) : outcome :=
  match xs with
  | [] => Done h
  | x :: xs' =>
      match body x h with
      | Done h' => for_each body xs' h'
      | Raised h' => Raised h'
      end
  end.

(** The objects of the [default_config] literal, built at [base]: the
    three settings of ['whisper'] and their mapping, the four of
    ['system'] and theirs, and the mapping of the two. *)
Definition default_objects (base : nat) : heap :=
  [ OStr (str "large-v3-turbo");
    OStr (str "float32");
    OBool true;
    ODict [ (str "model_size", base);
            (str "compute_type", base + 1);
            (str "enable_offload", base + 2) ];
    OStr (str "/tmp");
    OStr (str "/tmp/whisper_transcription.sock");
    OStr (str "/tmp/whisper_server.pid");
    OStr (str "/tmp/whisper_server.log");
    ODict [ (str "temp_dir", base + 4);
            (str "socket_path", base + 5);
            (str "pid_file", base + 6);
            (str "server_log", base + 7) ];
    ODict [ (str "whisper", base + 3);
            (str "system", base + 8) ] ].

Definition default_root (base : nat) : ref := base + 9.

(** The [default_config] literal as written. *)
Definition default_config : list (text * list (text * object)) :=
  [ (str "whisper",
     [ (str "model_size", OStr (str "large-v3-turbo"));
       (str "compute_type", OStr (str "float32"));
       (str "enable_offload", OBool true) ]);
    (str "system",
     [ (str "temp_dir", OStr (str "/tmp"));
       (str "socket_path", OStr (str "/tmp/whisper_transcription.sock"));
       (str "pid_file", OStr (str "/tmp/whisper_server.pid"));
       (str "server_log", OStr (str "/tmp/whisper_server.log")) ]) ].

(** [d.items()] of a mapping, read when the loop starts. *)
Definition items_of (h : heap) (r : ref) : list (text * ref) :=
  match nth_error h r with
  | Some (ODict items) => items
  | _ => []
  end.

(** The body of the inner loop:
    [if subkey not in config[key]: config[key][subkey] = subvalue]. *)
Definition merge_subkey (config : ref) (key : text)
  (item : text * ref) (h : heap) : outcome :=
  let (subkey, subvalue) := item in
  match getitem h config key with
  | None => Raised h
  | Some section =>
      match contains h section subkey with
      | None => Raised h
      | Some true => Done h
      | Some false =>
          match setitem h section subkey subvalue with
          | Some h' => Done h'
          | None => Raised h
          end
      end
  end.

(** The body of the outer loop. *)
Definition merge_section (config : ref) (item : text * ref) (h : heap)
  : outcome :=
  let (key, value) := item in
  match contains h config key with
  | None => Raised h
  | Some false =>
      match setitem h config key value with
      | Some h' => Done h'
      | None => Raised h
      end
  | Some true =>
      match nth_error h value with
      | Some (ODict _) =>
          for_each (merge_subkey config key) (items_of h value) h
      | _ => Done h
      end
  end.

(** [load_config]: the heap at its end and the place of the mapping it
    returns.  The literal is built first; its objects are put behind
    those of the document. *)
Definition load_config (file : config_file) : heap * ref :=
  match file with
  | Loaded h config =>
      let base := length h in
      let h1 := h ++ default_objects base in
      match for_each (merge_section config)
                     (items_of h1 (default_root base)) h1 with
      | Done h' => (h', config)
      | Raised h' => (h', default_root base)
      end
  | _ => (default_objects 0, default_root 0)
  end.

(** [config[section][key]] as an object's name, and the object. *)
Definition entry (c : heap * ref) (section key : text) : option ref :=
  match getitem (fst c) (snd c) section with
  | Some s => getitem (fst c) s key
  | None => None
  end.

Definition setting (c : heap * ref) (section key : text) : option object :=
  match entry c section key with
  | Some v => nth_error (fst c) v
  | None => None
  end.

(** The same reading on the literal. *)
Definition default_setting (section key : text) : option object :=
  match StatusBar.lookup section default_config with
  | Some settings => StatusBar.lookup key settings
  | None => None
  end.

Definition dict_at (h : heap) (r : ref) : bool :=
  match nth_error h r with
  | Some (ODict _) => true
  | _ => false
  end.

(** A scalar that is no string: [in] raises on it. *)
Definition scalar_at (h : heap) (r : ref) : bool :=
  match nth_error h r with
  | Some (OBool _) | Some OOther => true
  | _ => false
  end.

(** [if k not in obj: obj[k] = v] on a mapping. *)
Definition put (h : heap) (r : ref) (k : text) (v : ref) : heap :=
  match nth_error h r with
  | Some (ODict items) =>
      if has_item k items then h
      else update h r (ODict (set_item k v items))
  | _ => h
  end.

(** The writes of a whole section. *)
Definition fill (h : heap) (c : ref) (items : list (text * ref)) : heap :=
  fold_left (fun h' it => put h' c (fst it) (snd it)) items h.

(** The items of the two mappings of the literal built at [base]. *)
Definition whisper_items (base : nat) : list (text * ref) :=
  [ (str "model_size", base);
    (str "compute_type", base + 1);
    (str "enable_offload", base + 2) ].

Definition system_items (base : nat) : list (text * ref) :=
  [ (str "temp_dir", base + 4);
    (str "socket_path", base + 5);
    (str "pid_file", base + 6);
    (str "server_log", base + 7) ].

End Config.

(** ** Documents *)

Module Documents.

Import Config.

(** One mapping under both names, by an anchor:
    [whisper: &a {model_size: base}] and [system: *a]. *)
Definition shared_sections : heap :=
  [ OStr (str "base");
    ODict [ (str "model_size", 0) ];
    ODict [ (str "whisper", 1); (str "system", 1) ] ].

(** An empty file: [yaml.safe_load] gives [None]. *)
Definition empty_document : heap := [ OOther ].

(** [whisper:] with nothing behind it, and [system: {temp_dir: /run}]. *)
Definition empty_section : heap :=
  [ OOther;
    OStr (str "/run");
    ODict [ (str "temp_dir", 1) ];
    ODict [ (str "whisper", 0); (str "system", 2) ] ].

End Documents.

(** * Properties *)

(** ** Strings *)

Lemma is_space_space : is_space " " = true.
Proof. reflexivity. Qed.

Lemma lstrip_length (s : text) : length (lstrip s) <= length s.
Proof.
  induction s as [|c s IH]; simpl; [lia|].
  destruct (is_space c); simpl; lia.
Qed.

Lemma rstrip_length (s : text) : length (rstrip s) <= length s.
Proof.
  unfold rstrip. rewrite length_rev.
  pose proof (lstrip_length (rev s)) as H. rewrite length_rev in H. exact H.
Qed.

Lemma strip_length (s : text) : length (strip s) <= length s.
Proof.
  unfold strip.
  pose proof (rstrip_length (lstrip s)). pose proof (lstrip_length s). lia.
Qed.

Lemma lstrip_id (s : text) : starts_word s = true -> lstrip s = s.
Proof.
  destruct s as [|c s]; simpl; [discriminate|].
  destruct (is_space c); [discriminate | reflexivity].
Qed.


Lemma lstrip_nil_spaces (s : text) :
  lstrip s = [] -> forallb is_space s = true.
Proof.
  induction s as [|c s IH]; simpl; [reflexivity|].
  destruct (is_space c); [auto | discriminate].
Qed.

Lemma lstrip_starts (s : text) :
  lstrip s = [] \/ starts_word (lstrip s) = true.
Proof.
  induction s as [|c s IH]; simpl; [now left|].
  destruct (is_space c) eqn:E; [exact IH|].
  right. simpl. now rewrite E.
Qed.

(** A text that starts and ends on a character of a word is its own
    [strip]. *)
Lemma strip_id (a : text) (c : ascii) :
  is_space c = false ->
  (a = [] \/ starts_word a = true) ->
  strip (a ++ [c]) = a ++ [c].
Proof.
  intros Hc Ha. unfold strip.
  assert (Hl : lstrip (a ++ [c]) = a ++ [c]).
  { apply lstrip_id. destruct Ha as [-> | Ha]; simpl.
    - now rewrite Hc.
    - destruct a; [discriminate | exact Ha]. }
  rewrite Hl. unfold rstrip. rewrite rev_unit. simpl. rewrite Hc.
  change (c :: rev a) with ([c] ++ rev a).
  rewrite rev_app_distr, rev_involutive. reflexivity.
Qed.

Lemma strip_nil : strip [] = [].
Proof. reflexivity. Qed.

Lemma strip_nil_spaces (s : text) :
  strip s = [] -> forallb is_space s = true.
Proof.
  unfold strip, rstrip. intros H.
  apply lstrip_nil_spaces.
  destruct (lstrip_starts s) as [E | E]; [exact E|].
  destruct (lstrip s) as [|c r] eqn:El; [reflexivity|].
  exfalso. simpl in E.
  assert (Hr : lstrip (rev (c :: r)) <> []).
  { simpl. clear - E. generalize (rev r). intros l.
    induction l as [|d l IH]; simpl.
    - destruct (is_space c); [discriminate | congruence].
    - destruct (is_space d); [exact IH | discriminate]. }
  apply Hr. apply (f_equal (@rev ascii)) in H.
  rewrite rev_involutive in H. exact H.
Qed.


(** ** Words: [split] and [join] *)

Lemma is_word_cons (c : ascii) (w : text) :
  is_word (c :: w) = negb (is_space c) && forallb (fun d => negb (is_space d)) w.
Proof. reflexivity. Qed.

Lemma words_ok_cons (w : text) (ws : list text) :
  words_ok (w :: ws) = is_word w && words_ok ws.
Proof. reflexivity. Qed.

Lemma is_word_chars (w : text) :
  is_word w = true -> forallb (fun c => negb (is_space c)) w = true.
Proof.
  unfold is_word. intros H. apply andb_prop in H. tauto.
Qed.

Lemma is_word_not_nil (w : text) : is_word w = true -> w <> [].
Proof. destruct w; [discriminate | discriminate]. Qed.

Lemma is_word_app (a b : text) :
  is_word a = true -> forallb (fun c => negb (is_space c)) b = true ->
  is_word (a ++ b) = true.
Proof.
  destruct a as [|c a]; [discriminate|].
  rewrite <- app_comm_cons, !is_word_cons. intros H Hb.
  apply andb_prop in H as [Hc Ha]. rewrite Hc, forallb_app, Ha, Hb.
  reflexivity.
Qed.

Lemma split_word (w rest : text) :
  is_word w = true -> starts_word rest = false ->
  split (w ++ rest) = w :: split rest.
Proof.
  induction w as [|c w IH]; [discriminate|].
  intros Hw Hrest. rewrite is_word_cons in Hw.
  apply andb_prop in Hw as [Hc Hw]. apply negb_true_iff in Hc.
  destruct w as [|d w].
  - simpl. rewrite Hc, Hrest. reflexivity.
  - change (split ((c :: d :: w) ++ rest))
      with (if is_space c then split ((d :: w) ++ rest)
            else if starts_word ((d :: w) ++ rest)
                 then cons_head c (split ((d :: w) ++ rest))
                 else [c] :: split ((d :: w) ++ rest)).
    rewrite Hc.
    assert (Hd : starts_word ((d :: w) ++ rest) = true).
    { simpl in Hw. apply andb_prop in Hw as [Hd _]. exact Hd. }
    rewrite Hd, IH; [reflexivity | exact Hw | exact Hrest].
Qed.

(** Words joined by single spaces split into the same words. *)
Lemma split_join (ws : list text) :
  words_ok ws = true -> split (join ws) = ws.
Proof.
  induction ws as [|w ws IH]; [reflexivity|].
  intros H. rewrite words_ok_cons in H. apply andb_prop in H as [Hw Hws].
  destruct ws as [|w2 ws].
  - simpl. rewrite <- (app_nil_r w) at 1.
    rewrite split_word; [reflexivity | exact Hw | reflexivity].
  - change (join (w :: w2 :: ws)) with (w ++ " " :: join (w2 :: ws)).
    rewrite split_word; [| exact Hw | reflexivity].
    change (split (" " :: join (w2 :: ws))) with (split (join (w2 :: ws))).
    rewrite IH; [reflexivity | exact Hws].
Qed.

(** [split] gives words. *)
Lemma split_words (s : text) : words_ok (split s) = true.
Proof.
  induction s as [|c s IH]; [reflexivity|].
  simpl. destruct (is_space c) eqn:Hc; [exact IH|].
  destruct (starts_word s).
  - destruct (split s) as [|w ws]; unfold cons_head.
    + rewrite words_ok_cons, is_word_cons, Hc. reflexivity.
    + rewrite words_ok_cons in IH. apply andb_prop in IH as [Hw Hws].
      rewrite words_ok_cons, is_word_cons, Hc, (is_word_chars _ Hw), Hws.
      reflexivity.
  - rewrite words_ok_cons, is_word_cons, Hc, IH. reflexivity.
Qed.

Lemma word_count_true_le (s : text) :
  word_count true s <= word_count false s <= S (word_count true s).
Proof.
  destruct s as [|c s]; simpl; [lia|].
  destruct (is_space c); lia.
Qed.

Lemma word_count_starts (s : text) :
  starts_word s = true -> word_count false s = S (word_count true s).
Proof.
  destruct s as [|c s]; simpl; [discriminate|].
  destruct (is_space c); [discriminate | reflexivity].
Qed.

Lemma word_count_gap (s : text) :
  starts_word s = false -> word_count true s = word_count false s.
Proof.
  destruct s as [|c s]; simpl; [reflexivity|].
  destruct (is_space c); [reflexivity | discriminate].
Qed.

(** [len(s.split())] is the number of words of [s]. *)
Lemma split_length (s : text) : length (split s) = word_count false s.
Proof.
  induction s as [|c s IH]; [reflexivity|].
  simpl. destruct (is_space c) eqn:Hc; [exact IH|].
  destruct (starts_word s) eqn:Hs.
  - rewrite (word_count_starts s Hs) in IH.
    destruct (split s) as [|w ws]; [discriminate|].
    simpl in *. lia.
  - simpl. rewrite IH, (word_count_gap s Hs). reflexivity.
Qed.

(** Deleting characters never makes more words. *)
Lemma word_count_subseq (a b : text) :
  subseq a b -> forall f, word_count f a <= word_count f b.
Proof.
  induction 1 as [|c a b _ IH|c a b _ IH]; intros f; simpl.
  - lia.
  - destruct (is_space c); [apply IH|]. specialize (IH true). lia.
  - destruct (is_space c).
    + pose proof (word_count_true_le a). specialize (IH false).
      destruct f; lia.
    + pose proof (word_count_true_le a). specialize (IH true).
      destruct f; lia.
Qed.

Lemma subseq_refl (a : text) : subseq a a.
Proof. induction a; constructor; assumption. Qed.

Lemma subseq_trans (a b c : text) : subseq a b -> subseq b c -> subseq a c.
Proof.
  intros Hab Hbc. revert a Hab.
  induction Hbc as [|x b c _ IH|x b c _ IH]; intros a Hab.
  - exact Hab.
  - inversion Hab; subst.
    + apply subseq_keep. auto.
    + apply subseq_drop. auto.
  - apply subseq_drop. auto.
Qed.

Lemma subseq_skipn (n : nat) (s : text) : subseq (skipn n s) s.
Proof.
  revert n. induction s as [|c s IH]; intros [|n]; simpl;
    try apply subseq_refl.
  apply subseq_drop, IH.
Qed.

(** ** The numeric-run strip *)

Lemma span_app_eq (p : ascii -> bool) (s a b : text) :
  span p s = (a, b) -> s = a ++ b.
Proof.
  revert a b. induction s as [|c s IH]; intros a b; simpl.
  - intros [= <- <-]. reflexivity.
  - destruct (p c).
    + destruct (span p s) as [a' b'] eqn:E. intros [= <- <-].
      simpl. f_equal. apply IH. reflexivity.
    + intros [= <- <-]. reflexivity.
Qed.


Lemma subseq_app_r (a b : text) : subseq b (a ++ b).
Proof.
  induction a; simpl; [apply subseq_refl | apply subseq_drop; assumption].
Qed.

Lemma subseq_lstrip (s : text) : subseq (lstrip s) s.
Proof.
  induction s as [|c s IH]; simpl; [constructor|].
  destruct (is_space c); [apply subseq_drop, IH | apply subseq_refl].
Qed.

Lemma match_group_shorter (s r : text) :
  match_group s = Some r -> subseq r s /\ length r < length s.
Proof.
  unfold match_group.
  destruct (span is_digit s) as [a b] eqn:E.
  destruct a as [|d a]; [discriminate|].
  destruct b as [|c b]; [discriminate|].
  destruct (Ascii.eqb c ","); [|discriminate].
  intros [= <-]. apply span_app_eq in E. subst s. split.
  - apply subseq_trans with (b := c :: b).
    + apply subseq_drop, subseq_lstrip.
    + apply subseq_app_r.
  - pose proof (lstrip_length b). rewrite length_app. simpl. lia.
Qed.

Lemma match_groups_shorter (f : nat) (s r : text) (k : nat) :
  match_groups f s = (k, r) ->
  subseq r s /\ length r <= length s /\ (0 < k -> length r < length s).
Proof.
  revert s r k. induction f as [|f IH]; intros s r k; simpl.
  - intros [= <- <-]. split; [apply subseq_refl | lia].
  - destruct (match_group s) as [r1|] eqn:E.
    + destruct (match_groups f r1) as [k1 r2] eqn:E2. intros [= <- <-].
      apply match_group_shorter in E as [Hs Hl].
      apply IH in E2 as (Hs2 & Hl2 & _).
      split; [eapply subseq_trans; eassumption | lia].
    + intros [= <- <-]. split; [apply subseq_refl | lia].
Qed.

Lemma match_numeric_run_shorter (s r : text) :
  match_numeric_run s = Some r -> subseq r s /\ length r < length s.
Proof.
  unfold match_numeric_run.
  destruct (match_groups (length s) s) as [k r1] eqn:E.
  destruct (10 <=? k) eqn:Hk; [|discriminate].
  intros [= <-]. apply Nat.leb_le in Hk.
  apply match_groups_shorter in E as (Hs & _ & Hl). split; [exact Hs | lia].
Qed.

(** Fuel: the greedy repetition is the same with any amount from
    [length s] on. *)
Lemma match_groups_fuel (f1 : nat) :
  forall (f2 : nat) (s : text),
    length s <= f1 -> length s <= f2 ->
    match_groups f1 s = match_groups f2 s.
Proof.
  induction f1 as [|f1 IH]; intros f2 s H1 H2.
  - destruct s; [|simpl in H1; lia]. destruct f2; reflexivity.
  - destruct f2 as [|f2].
    + destruct s; [reflexivity | simpl in H2; lia].
    + simpl. destruct (match_group s) as [r|] eqn:E; [|reflexivity].
      apply match_group_shorter in E as [_ Hl].
      rewrite (IH f2 r) by lia. reflexivity.
Qed.

(** The strip only deletes characters. *)
Lemma sub_runs_subseq (f : nat) (s : text) : subseq (sub_runs f s) s.
Proof.
  revert s. induction f as [|f IH]; intros s; simpl; [apply subseq_refl|].
  destruct (match_numeric_run s) as [r|] eqn:E.
  - apply match_numeric_run_shorter in E as [Hs _].
    eapply subseq_trans; [apply IH | exact Hs].
  - destruct s as [|c s]; [constructor | apply subseq_keep, IH].
Qed.



Lemma strip_numeric_runs_subseq (s : text) : subseq (strip_numeric_runs s) s.
Proof. apply sub_runs_subseq. Qed.

(** The strip never raises the number of words. *)
Lemma strip_numeric_runs_words (s : text) :
  length (split (strip_numeric_runs s)) <= length (split s).
Proof.
  rewrite !split_length.
  apply word_count_subseq, strip_numeric_runs_subseq.
Qed.

Lemma match_group_no_comma (s : text) :
  no_comma s = true -> match_group s = None.
Proof.
  intros H. unfold match_group.
  destruct (span is_digit s) as [a b] eqn:E.
  destruct a as [|d a]; [reflexivity|].
  destruct b as [|c b]; [reflexivity|].
  apply span_app_eq in E. subst s.
  unfold no_comma in H. rewrite forallb_app in H.
  apply andb_prop in H as [_ H]. simpl in H.
  apply andb_prop in H as [H _]. apply negb_true_iff in H.
  rewrite H. reflexivity.
Qed.

Lemma match_numeric_run_none (s : text) :
  match_group s = None -> match_numeric_run s = None.
Proof.
  intros H. unfold match_numeric_run.
  destruct (length s); simpl; [reflexivity|]. rewrite H. reflexivity.
Qed.

(** A text without a comma has nothing to strip. *)
Lemma sub_runs_no_comma (f : nat) (s : text) :
  no_comma s = true -> sub_runs f s = s.
Proof.
  revert s. induction f as [|f IH]; intros s H; simpl; [reflexivity|].
  rewrite (match_numeric_run_none s (match_group_no_comma s H)).
  destruct s as [|c s]; [reflexivity|].
  simpl in H. apply andb_prop in H as [_ H]. rewrite IH; auto.
Qed.

Lemma strip_numeric_runs_no_comma (s : text) :
  no_comma s = true -> strip_numeric_runs s = s.
Proof. apply sub_runs_no_comma. Qed.




Lemma space_not_comma (c : ascii) :
  is_space c = true -> Ascii.eqb c "," = false.
Proof.
  destruct c as [[] [] [] [] [] [] [] []]; vm_compute;
    intros H; try reflexivity; discriminate H.
Qed.

Lemma span_all (p : ascii -> bool) (s a b : text) :
  span p s = (a, b) -> forallb p a = true.
Proof.
  revert a b. induction s as [|c s IH]; intros a b; simpl.
  - intros [= <- <-]. reflexivity.
  - destruct (p c) eqn:Hc.
    + destruct (span p s) as [a' b'] eqn:E. intros [= <- <-].
      simpl. rewrite Hc. apply (IH a' b'). reflexivity.
    + intros [= <- <-]. reflexivity.
Qed.










(** ** The guard on empty text *)

Lemma split_spaces (s : text) : forallb is_space s = true -> split s = [].
Proof.
  induction s as [|c s IH]; simpl; [reflexivity|].
  intros H. apply andb_prop in H as [Hc Hs]. rewrite Hc. auto.
Qed.

Lemma spaces_no_comma (s : text) :
  forallb is_space s = true -> no_comma s = true.
Proof.
  induction s as [|c s IH]; simpl; [reflexivity|].
  intros H. apply andb_prop in H as [Hc Hs].
  rewrite (space_not_comma c Hc), IH by exact Hs. reflexivity.
Qed.

(** The guard [if not text or not text.strip()] changes nothing: the
    rest of the function gives the empty text on such input by itself. *)
Lemma clean_unguarded (t : text) :
  clean_transcription_text t
  = strip (limit_length (join (clean_words t))).
Proof.
  unfold clean_transcription_text.
  destruct (is_empty t || is_empty (strip t)) eqn:G; [|reflexivity].
  assert (Hsp : forallb is_space t = true).
  { apply orb_true_iff in G as [G | G].
    - destruct t; [reflexivity | discriminate].
    - apply strip_nil_spaces. destruct (strip t); [reflexivity | discriminate]. }
  unfold clean_words.
  rewrite (strip_numeric_runs_no_comma t (spaces_no_comma t Hsp)).
  rewrite (split_spaces t Hsp). reflexivity.
Qed.

(** ** The shape of joined words *)

Lemma join_cons (w w2 : text) (ws : list text) :
  join (w :: w2 :: ws) = w ++ " " :: join (w2 :: ws).
Proof. reflexivity. Qed.

Lemma join_starts (ws : list text) :
  ws <> [] -> words_ok ws = true -> starts_word (join ws) = true.
Proof.
  destruct ws as [|w ws]; [congruence|]. intros _ H.
  rewrite words_ok_cons in H. apply andb_prop in H as [Hw _].
  destruct w as [|c w]; [discriminate|].
  rewrite is_word_cons in Hw. apply andb_prop in Hw as [Hc _].
  destruct ws; simpl; exact Hc.
Qed.

Lemma word_last (w : text) :
  is_word w = true -> exists a c, w = a ++ [c] /\ is_space c = false.
Proof.
  intros H. pose proof (is_word_not_nil w H) as Hn.
  destruct (exists_last Hn) as (a & c & ->). exists a, c. split; [reflexivity|].
  apply is_word_chars in H. rewrite forallb_app in H.
  apply andb_prop in H as [_ H]. simpl in H.
  apply andb_prop in H as [H _]. apply negb_true_iff in H. exact H.
Qed.

Lemma join_last (ws : list text) :
  ws <> [] -> words_ok ws = true ->
  exists a c, join ws = a ++ [c] /\ is_space c = false.
Proof.
  induction ws as [|w ws IH]; [congruence|]. intros _ H.
  rewrite words_ok_cons in H. apply andb_prop in H as [Hw Hws].
  destruct ws as [|w2 ws].
  - simpl. apply word_last, Hw.
  - destruct (IH ltac:(discriminate) Hws) as (a & c & E & Hc).
    exists (w ++ " " :: a), c. split; [|exact Hc].
    rewrite join_cons, E, <- app_assoc. reflexivity.
Qed.

Lemma strip_ends (s a : text) (c : ascii) :
  starts_word s = true -> s = a ++ [c] -> is_space c = false ->
  strip s = s.
Proof.
  intros Hs -> Hc. apply strip_id; [exact Hc|].
  destruct a as [|d a]; [now left | right; exact Hs].
Qed.

(** Joined words have no whitespace at either end. *)
Lemma strip_join (ws : list text) :
  words_ok ws = true -> strip (join ws) = join ws.
Proof.
  intros H.
  assert (Hn : ws = [] \/ ws <> []) by (destruct ws; [now left | now right]).
  destruct Hn as [-> | Hn]; [reflexivity|].
  destruct (join_last ws Hn H) as (a & c & Ea & Hc).
  eapply strip_ends; [apply join_starts; assumption | exact Ea | exact Hc].
Qed.

(** The characters of joined words are those of the words and SPACE. *)
Lemma join_chars (ws : list text) :
  words_ok ws = true ->
  forallb (fun c => negb (is_space c) || Ascii.eqb c " ") (join ws) = true.
Proof.
  induction ws as [|w ws IH]; [reflexivity|]. intros H.
  rewrite words_ok_cons in H. apply andb_prop in H as [Hw Hws].
  assert (Hc : forallb (fun c => negb (is_space c) || Ascii.eqb c " ") w = true).
  { apply is_word_chars in Hw. rewrite forallb_forall in *.
    intros c Hin. rewrite (Hw c Hin). reflexivity. }
  destruct ws as [|w2 ws]; [exact Hc|].
  rewrite join_cons, forallb_app, Hc. simpl. apply IH, Hws.
Qed.

(** ** Slices of a repeated phrase *)

Lemma times_S {A : Type} (n : nat) (p : list A) :
  times (S n) p = p ++ times n p.
Proof. reflexivity. Qed.

Lemma times_length {A : Type} (n : nat) (p : list A) :
  length (times n p) = n * length p.
Proof.
  induction n as [|n IH]; [reflexivity|].
  rewrite times_S, length_app, IH. reflexivity.
Qed.





(** ** The phrase-repetition scan *)

Lemma text_eqb_refl (a : text) : text_eqb a a = true.
Proof. unfold text_eqb. destruct (list_eq_dec ascii_dec a a); congruence. Qed.

Lemma text_eqb_eq (a b : text) : text_eqb a b = true -> a = b.
Proof.
  unfold text_eqb. destruct (list_eq_dec ascii_dec a b); [auto | discriminate].
Qed.

(** Fuel: [pos] grows by [phrase_len] in every round of the [while]
    loop, so the loop is over before [length words] rounds, and any larger
    amount of fuel gives the same count. *)
Lemma count_repetitions_fuel (phrase : text) (l : nat) (ws : list text) :
  0 < l ->
  forall (f1 f2 pos r : nat),
    length ws < pos + l + f1 -> length ws < pos + l + f2 ->
    count_repetitions f1 phrase l ws pos r
    = count_repetitions f2 phrase l ws pos r.
Proof.
  intros Hl. induction f1 as [|f1 IH]; intros f2 pos r H1 H2.
  - destruct f2 as [|f2]; [reflexivity|]. simpl.
    replace (pos + l <=? length ws) with false; [reflexivity|].
    symmetry. apply Nat.leb_gt. lia.
  - destruct f2 as [|f2]; simpl.
    + replace (pos + l <=? length ws) with false; [reflexivity|].
      symmetry. apply Nat.leb_gt. lia.
    + destruct (pos + l <=? length ws); [|reflexivity].
      destruct (text_eqb _ _); [|reflexivity].
      apply IH; lia.
Qed.

Lemma try_position_fuel (phrase : text) (l i f : nat) (ws : list text) :
  0 < l -> length ws <= f ->
  count_repetitions f phrase l ws (i + l) 1
  = count_repetitions (length ws) phrase l ws (i + l) 1.
Proof. intros Hl Hf. apply count_repetitions_fuel; lia. Qed.












Lemma words_ok_app (a b : list text) :
  words_ok (a ++ b) = words_ok a && words_ok b.
Proof. apply forallb_app. Qed.

Lemma words_ok_firstn (n : nat) (ws : list text) :
  words_ok ws = true -> words_ok (firstn n ws) = true.
Proof.
  intros H. rewrite <- (firstn_skipn n ws), words_ok_app in H.
  apply andb_prop in H. tauto.
Qed.

Lemma words_ok_skipn (n : nat) (ws : list text) :
  words_ok ws = true -> words_ok (skipn n ws) = true.
Proof.
  intros H. rewrite <- (firstn_skipn n ws), words_ok_app in H.
  apply andb_prop in H. tauto.
Qed.

Lemma try_position_words (l i : nat) (ws ws' : list text) :
  words_ok ws = true -> try_position l ws i = Some ws' ->
  words_ok ws' = true.
Proof.
  intros H. unfold try_position.
  destruct (eligible _); [|discriminate].
  destruct (3 <? _); [|discriminate].
  intros [= <-]. rewrite words_ok_app, words_ok_firstn, words_ok_skipn; auto.
Qed.

Lemma scan_positions_words (l : nat) (ws : list text) (positions : list nat) :
  words_ok ws = true -> words_ok (scan_positions l ws positions) = true.
Proof.
  intros H. induction positions as [|i rest IH]; [exact H|].
  simpl. destruct (try_position l ws i) eqn:E; [|exact IH].
  apply (try_position_words l i ws); assumption.
Qed.

(** The scan gives words back. *)
Lemma collapse_repetitions_words (ws : list text) :
  words_ok ws = true -> words_ok (collapse_repetitions ws) = true.
Proof.
  unfold collapse_repetitions. destruct (20 <? length ws); [|auto].
  generalize (seq 3 5). intros ls. revert ws.
  induction ls as [|l ls IH]; intros ws H; [exact H|].
  simpl. apply IH. apply scan_positions_words, H.
Qed.

Lemma clean_words_ok (t : text) : words_ok (clean_words t) = true.
Proof. apply collapse_repetitions_words, split_words. Qed.

(** The gate: 20 words or fewer are not scanned. *)
Lemma collapse_repetitions_gate (ws : list text) :
  length ws <= 20 -> collapse_repetitions ws = ws.
Proof.
  intros H. unfold collapse_repetitions.
  replace (20 <? length ws) with false; [reflexivity|].
  symmetry. apply Nat.ltb_ge. exact H.
Qed.

(** ** The length limit *)

Lemma has_space_cons (c : ascii) (s : text) :
  has_space (c :: s) = Ascii.eqb c " " || has_space s.
Proof. reflexivity. Qed.

Lemma rsplit_head_no_space (s : text) :
  has_space s = false -> rsplit_head s = s.
Proof.
  destruct s as [|c s]; [reflexivity|].
  rewrite has_space_cons. intros H. apply orb_false_iff in H as [Hc Hs].
  simpl. rewrite Hs, Hc. reflexivity.
Qed.

Lemma rsplit_head_length (s : text) : length (rsplit_head s) <= length s.
Proof.
  induction s as [|c s IH]; simpl; [lia|].
  destruct (has_space s); simpl; [lia|].
  destruct (Ascii.eqb c " "); simpl; lia.
Qed.

(** [rsplit] cuts at the last SPACE. *)
Lemma rsplit_head_last_space (a b : text) :
  has_space b = false -> rsplit_head (a ++ " " :: b) = a.
Proof.
  intros Hb. induction a as [|c a IH]; simpl.
  - rewrite Hb. reflexivity.
  - assert (H : has_space (a ++ " " :: b) = true).
    { unfold has_space. rewrite existsb_app. simpl. apply orb_true_r. }
    rewrite H, IH. reflexivity.
Qed.

Lemma has_space_last (s : text) :
  has_space s = true ->
  exists a b, s = a ++ " " :: b /\ has_space b = false.
Proof.
  induction s as [|c s IH]; [discriminate|].
  rewrite has_space_cons. intros H.
  destruct (has_space s) eqn:Hs.
  - destruct (IH eq_refl) as (a & b & -> & Hb).
    exists (c :: a), b. split; [reflexivity | exact Hb].
  - rewrite orb_false_r in H. apply Ascii.eqb_eq in H. subst c.
    exists [], s. split; [reflexivity | exact Hs].
Qed.

Lemma word_space_cut (w j a r : text) :
  forallb (fun c => negb (is_space c)) w = true ->
  w ++ " " :: j = a ++ " " :: r ->
  a = w \/ exists a', a = w ++ " " :: a' /\ j = a' ++ " " :: r.
Proof.
  revert a. induction w as [|c w IH]; intros a Hw E.
  - destruct a as [|d a]; simpl in E.
    + now left.
    + injection E as <- E. right. exists a. split; [reflexivity | exact E].
  - simpl in Hw. apply andb_prop in Hw as [Hc Hw].
    destruct a as [|d a]; simpl in E.
    + injection E as -> _. discriminate Hc.
    + injection E as <- E. destruct (IH a Hw E) as [-> | (a' & -> & Hj)].
      * now left.
      * right. exists a'. split; [reflexivity | exact Hj].
Qed.

(** A SPACE of joined words stands between two of the words. *)
Lemma join_cut (ws : list text) :
  forall (a r : text),
    words_ok ws = true -> join ws = a ++ " " :: r ->
    exists m, 0 < m /\ a = join (firstn m ws).
Proof.
  induction ws as [|w ws IH]; intros a r H E.
  - destruct a; discriminate E.
  - rewrite words_ok_cons in H. apply andb_prop in H as [Hw Hws].
    pose proof (is_word_chars w Hw) as Hc.
    destruct ws as [|w2 ws].
    + exfalso. simpl in E. subst w. rewrite forallb_app in Hc.
      apply andb_prop in Hc as [_ Hc]. discriminate Hc.
    + rewrite join_cons in E.
      destruct (word_space_cut w _ a r Hc E) as [-> | (a' & -> & Hj)].
      * exists 1. split; [lia | reflexivity].
      * destruct (IH a' r Hws Hj) as (m & Hm & ->).
        exists (S m). split; [lia|].
        destruct m as [|m]; [lia|]. reflexivity.
Qed.

Lemma join_nonempty (w : text) (ws : list text) :
  ws <> [] -> join (w :: ws) = w ++ " " :: join ws.
Proof. destruct ws; [congruence | reflexivity]. Qed.

Lemma join_snoc (l : list text) (w e : text) :
  join (l ++ [w]) ++ e = join (l ++ [w ++ e]).
Proof.
  induction l as [|x l IH]; [reflexivity|].
  rewrite <- !app_comm_cons.
  rewrite !join_nonempty by (destruct l; discriminate).
  rewrite <- app_assoc. simpl. rewrite IH. reflexivity.
Qed.

Lemma forallb_firstn {A : Type} (f : A -> bool) (n : nat) (l : list A) :
  forallb f l = true -> forallb f (firstn n l) = true.
Proof.
  intros H. rewrite <- (firstn_skipn n l), forallb_app in H.
  apply andb_prop in H. tauto.
Qed.

Lemma no_space_chars (s : text) :
  forallb (fun c => negb (is_space c) || Ascii.eqb c " ") s = true ->
  has_space s = false ->
  forallb (fun c => negb (is_space c)) s = true.
Proof.
  induction s as [|c s IH]; [reflexivity|].
  rewrite has_space_cons. simpl. intros H Hs.
  apply andb_prop in H as [Hc H]. apply orb_false_iff in Hs as [Hc' Hs].
  rewrite Hc', orb_false_r in Hc. rewrite Hc. apply IH; assumption.
Qed.

Lemma ellipsis_chars :
  forallb (fun c => negb (is_space c)) ellipsis = true.
Proof. reflexivity. Qed.

(** What the limit leaves of over-long joined words is again a text of
    words joined by single spaces. *)
Lemma limit_cut_words (ws : list text) (n : nat) :
  words_ok ws = true -> 0 < n -> n < length (join ws) ->
  exists ws',
    words_ok ws' = true
    /\ rsplit_head (firstn n (join ws)) ++ ellipsis = join ws'.
Proof.
  intros H Hn Hlen.
  destruct (has_space (firstn n (join ws))) eqn:Hs.
  - destruct (has_space_last _ Hs) as (a & b & E & Hb).
    rewrite E, (rsplit_head_last_space a b Hb).
    assert (Ej : join ws = a ++ " " :: (b ++ skipn n (join ws))).
    { rewrite <- (firstn_skipn n (join ws)) at 1. rewrite E, <- app_assoc.
      reflexivity. }
    destruct (join_cut ws a _ H Ej) as (m & Hm & ->).
    assert (Hne : firstn m ws <> []).
    { destruct ws; [simpl in Hlen; lia|]. destruct m; [lia | discriminate]. }
    destruct (exists_last Hne) as (l & w & El).
    pose proof (words_ok_firstn m ws H) as Hok. rewrite El in *.
    rewrite words_ok_app in Hok. apply andb_prop in Hok as [Hl Hw].
    rewrite words_ok_cons in Hw. apply andb_prop in Hw as [Hw _].
    exists (l ++ [w ++ ellipsis]). split; [|apply join_snoc].
    rewrite words_ok_app, Hl, words_ok_cons.
    rewrite (is_word_app w ellipsis Hw ellipsis_chars). reflexivity.
  - rewrite (rsplit_head_no_space _ Hs).
    exists [firstn n (join ws) ++ ellipsis]. split; [|reflexivity].
    rewrite words_ok_cons, andb_true_r.
    apply is_word_app; [|apply ellipsis_chars].
    unfold is_word. apply andb_true_intro. split.
    + destruct (join ws); [simpl in Hlen; lia|].
      destruct n; [lia | reflexivity].
    + apply no_space_chars; [|exact Hs].
      apply forallb_firstn, join_chars, H.
Qed.

Lemma limit_length_short (t : text) :
  length t <= max_length -> limit_length t = t.
Proof.
  intros H. unfold limit_length.
  replace (max_length <? length t) with false; [reflexivity|].
  symmetry. apply Nat.ltb_ge. exact H.
Qed.

Lemma limit_length_long (t : text) :
  max_length < length t ->
  limit_length t = rsplit_head (firstn max_length t) ++ ellipsis.
Proof.
  intros H. unfold limit_length.
  replace (max_length <? length t) with true; [reflexivity|].
  symmetry. apply Nat.ltb_lt. exact H.
Qed.

Lemma max_length_pos : 0 < max_length.
Proof. unfold max_length. lia. Qed.

Lemma limit_length_bound (t : text) :
  length (limit_length t) <= max_length + length ellipsis.
Proof.
  destruct (Nat.le_gt_cases (length t) max_length) as [H | H].
  - rewrite limit_length_short by exact H. lia.
  - rewrite limit_length_long by exact H. rewrite length_app.
    pose proof (rsplit_head_length (firstn max_length t)) as Hr.
    rewrite length_firstn in Hr. lia.
Qed.

(** The text the sanitizer returns is a text of words joined by single
    spaces. *)
Lemma clean_normal (t : text) :
  exists ws, words_ok ws = true /\ clean_transcription_text t = join ws.
Proof.
  rewrite clean_unguarded.
  pose proof (clean_words_ok t) as Hok.
  destruct (Nat.le_gt_cases (length (join (clean_words t))) max_length)
    as [H | H].
  - rewrite limit_length_short by exact H.
    exists (clean_words t). split; [exact Hok | apply strip_join, Hok].
  - rewrite limit_length_long by exact H.
    destruct (limit_cut_words _ _ Hok max_length_pos H) as (ws' & Hw & E).
    exists ws'. split; [exact Hw|]. rewrite E. apply strip_join, Hw.
Qed.

(** * The claims *)

(** ** The transcription pipeline *)

Section PipelineFacts.

Import Pipeline.

Variable w : world.

(** The model is asked exactly when the file is there and has 1000 bytes
    or more. *)
Lemma transcribe_file_calls (f : text) (st : state) :
  model_calls (snd (transcribe_file w f st))
  = if Threads.needs_model w f then model_calls st ++ [f]
    else model_calls st.
Proof.
  unfold transcribe_file, Threads.needs_model.
  destruct (files w f) as [size|]; [|reflexivity].
  destruct (size <? small_file_threshold)%Z; [reflexivity|].
  unfold bind, time_time, model_transcribe, ret. simpl.
  destruct (model w f); reflexivity.
Qed.

Lemma transcribe_file_standalone_calls (f : text) (st : state) :
  model_calls (snd (transcribe_file_standalone w f st))
  = if Threads.needs_model w f then model_calls st ++ [f]
    else model_calls st.
Proof.
  unfold transcribe_file_standalone, Threads.needs_model.
  destruct (files w f) as [size|]; [|reflexivity].
  destruct (size <? small_file_threshold)%Z; [reflexivity|].
  unfold bind, time_time, model_transcribe, ret. simpl.
  destruct (model w f); reflexivity.
Qed.



End PipelineFacts.



(** ** The status reader *)



(** ** The handler threads *)

Section ThreadFacts.

Import Pipeline Threads.

Variable w : world.

Lemma advance_nth_app (p1 p2 : pool) (t : thread) :
  advance_nth w (length p1) (p1 ++ t :: p2) = p1 ++ advance w t :: p2.
Proof.
  induction p1 as [|t1 p1 IH]; [reflexivity|].
  simpl. rewrite IH. reflexivity.
Qed.

Lemma in_model_count_app (p1 p2 : pool) :
  in_model_count (p1 ++ p2) = in_model_count p1 + in_model_count p2.
Proof. unfold in_model_count. rewrite filter_app, length_app. reflexivity. Qed.

(** C1, as the code has it.  Nothing holds a handler back from the
    model: a transcribe request whose file passes the two guards enters
    the model's [transcribe] on its thread's next move, whatever the other
    threads are doing, so the number of threads inside the model goes up
    by one; it leaves the model on a later move of its own.  A ping is
    answered in one move and leaves the threads inside the model where
    they are. *)
Theorem handlers_not_serialized (p1 p2 : pool) (f : text) :
  needs_model w f = true ->
  let waiting := p1 ++ Started (Transcribe f) :: p2 in
  let inside := p1 ++ InModel f :: p2 in
  exec w [Run (length p1)] waiting = inside
  /\ in_model_count inside = S (in_model_count waiting)
  /\ exec w [Run (length p1)] inside = p1 ++ Done :: p2
  /\ exec w [Run (length p1)] (p1 ++ Started Ping :: p2)
     = p1 ++ Done :: p2
  /\ in_model_count (p1 ++ Done :: p2)
     = in_model_count (p1 ++ Started Ping :: p2).
Proof.
  intros Hf waiting inside. unfold waiting, inside, exec. simpl.
  rewrite !advance_nth_app, !in_model_count_app. simpl. rewrite Hf.
  repeat split; try reflexivity.
  unfold in_model_count. simpl. lia.
Qed.

End ThreadFacts.

Lemma handlers_not_serialized_witness :
  Threads.exec Examples.example_world [Threads.Run 1]
    [Threads.InModel (str "/tmp/a.wav");
     Threads.Started (Threads.Transcribe (str "/tmp/b.wav"))]
  = [Threads.InModel (str "/tmp/a.wav"); Threads.InModel (str "/tmp/b.wav")].
Proof.
  apply (handlers_not_serialized Examples.example_world
           [Threads.InModel (str "/tmp/a.wav")] [] (str "/tmp/b.wav")).
  reflexivity.
Defined.

(** C1, as the specification has it, fails: two requests accepted one
    after the other are both inside the model after one move each. *)
Lemma transcribes_overlap :
  Threads.in_model_count
    (Threads.exec Examples.example_world
       [Threads.Accept (Threads.Transcribe (str "/tmp/a.wav"));
        Threads.Accept (Threads.Transcribe (str "/tmp/b.wav"));
        Threads.Run 0; Threads.Run 1] [])
  = 2.
Proof. reflexivity. Qed.

Lemma example_world_not_serialized : ~ serialized Examples.example_world.
Proof.
  intros H.
  specialize (H [Threads.Accept (Threads.Transcribe (str "/tmp/a.wav"));
                 Threads.Accept (Threads.Transcribe (str "/tmp/b.wav"));
                 Threads.Run 0; Threads.Run 1]).
  vm_compute in H. lia.
Qed.

(** ** The sanitizer *)




Lemma five_times_four_words (p : list text) :
  words_ok p = true -> length p = 4 ->
  length (split (join (times 5 p))) = 20.
Proof.
  intros Hok Hlen. rewrite split_join.
  - rewrite times_length, Hlen. reflexivity.
  - unfold times. simpl. rewrite !words_ok_app, Hok. reflexivity.
Qed.

Lemma four_word_phrase_uncollapsed (p : list text) :
  length p = 4 -> collapse_repetitions (times 5 p) = times 5 p.
Proof.
  intros Hlen. apply collapse_repetitions_gate.
  rewrite times_length, Hlen. simpl. lia.
Qed.

(** C4.  The word-count gate: for an input of at most 20 words the scan
    for repeated phrases is not entered; the words that are joined again
    are those of the input after the numeric strip, and the output is
    their join, limited in length and stripped.  (A phrase of four words
    five times in a row is such an input, by [five_times_four_words], and
    its 20 words are left as they are, [four_word_phrase_uncollapsed].) *)
Theorem word_count_gate (t : text) :
  length (split t) <= 20 ->
  clean_words t = split (strip_numeric_runs t)
  /\ clean_transcription_text t
     = strip (limit_length (join (split (strip_numeric_runs t)))).
Proof.
  intros H.
  assert (E : clean_words t = split (strip_numeric_runs t)).
  { unfold clean_words. apply collapse_repetitions_gate.
    pose proof (strip_numeric_runs_words t). lia. }
  split; [exact E|]. rewrite clean_unguarded, E. reflexivity.
Qed.

Lemma word_count_gate_witness :
  clean_words Examples.twenty_words
  = times 5 (Examples.words_of "thanks for watching everyone")
  /\ clean_transcription_text Examples.twenty_words = Examples.twenty_words.
Proof.
  destruct (word_count_gate Examples.twenty_words) as [Hw Hc].
  - vm_compute. lia.
  - split.
    + rewrite Hw. vm_compute. reflexivity.
    + rewrite Hc. vm_compute. reflexivity.
Defined.







(** C7, as the code has it.  When the joined words are longer than 1000
    characters the output is what [rsplit] leaves of the first 1000
    characters, followed by the ellipsis: the join of the first [m] words
    when these characters hold a SPACE, all 1000 characters (a cut inside
    or behind the first word) when they do not.  The output of any input
    is at most 1000 characters plus the ellipsis long. *)
Theorem length_cap (t : text) :
  let joined := join (clean_words t) in
  (max_length < length joined ->
   clean_transcription_text t
   = rsplit_head (firstn max_length joined) ++ ellipsis
   /\ (has_space (firstn max_length joined) = true ->
       exists m, 0 < m
         /\ clean_transcription_text t
            = join (firstn m (clean_words t)) ++ ellipsis)
   /\ (has_space (firstn max_length joined) = false ->
       clean_transcription_text t = firstn max_length joined ++ ellipsis))
  /\ length (clean_transcription_text t) <= max_length + length ellipsis.
Proof.
  intros joined. split.
  - intros Hlong.
    pose proof (clean_words_ok t) as Hok.
    assert (E : clean_transcription_text t
                = rsplit_head (firstn max_length joined) ++ ellipsis).
    { rewrite clean_unguarded. fold joined.
      rewrite (limit_length_long joined Hlong).
      destruct (limit_cut_words _ _ Hok max_length_pos Hlong)
        as (ws' & Hw & E).
      fold joined in E. rewrite E. apply strip_join, Hw. }
    split; [exact E|]. split.
    + intros Hs. destruct (has_space_last _ Hs) as (a & b & Ef & Hb).
      assert (Ej : joined = a ++ " " :: (b ++ skipn max_length joined)).
      { rewrite <- (firstn_skipn max_length joined) at 1.
        rewrite Ef, <- app_assoc. reflexivity. }
      destruct (join_cut _ a _ Hok Ej) as (m & Hm & Ea).
      exists m. split; [exact Hm|].
      rewrite E, Ef, (rsplit_head_last_space a b Hb), Ea. reflexivity.
    + intros Hs. rewrite E, (rsplit_head_no_space _ Hs). reflexivity.
  - rewrite clean_unguarded.
    pose proof (strip_length (limit_length (join (clean_words t)))).
    pose proof (limit_length_bound (join (clean_words t))). lia.
Qed.

Lemma length_cap_witness :
  clean_transcription_text Examples.long_sentence
  = join (map (repeat "a") (seq 1 43)) ++ ellipsis.
Proof.
  destruct (length_cap Examples.long_sentence) as [H _].
  destruct H as (E & _ & _).
  - vm_compute. lia.
  - rewrite E. vm_compute. reflexivity.
Defined.

(** C7, as the specification has it, fails: a single word of 1001
    characters is cut behind its character 1000, inside the word. *)
Lemma long_word_cut_inside :
  clean_words Examples.long_word = [repeat "a" 1001]
  /\ clean_transcription_text Examples.long_word
     = repeat "a" 1000 ++ ellipsis.
Proof. split; vm_compute; reflexivity. Qed.









(** * More of the code *)

(** ** The scan for repeated phrases, position by position *)

(** The [while] loop counts the windows behind [pos] that fit and are
    equal to the phrase. *)
Lemma count_repetitions_spec (phrase : text) (l : nat) (ws : list text) :
  forall (f pos r0 : nat),
  exists n,
    count_repetitions f phrase l ws pos r0 = r0 + n
    /\ forall j, j < n ->
         pos + j * l + l <= length ws
         /\ lower phrase
            = lower (join (slice (pos + j * l) (pos + j * l + l) ws)).
Proof.
  induction f as [|f IH]; intros pos r0.
  - exists 0. split; [simpl; lia | intros j Hj; lia].
  - simpl. destruct (pos + l <=? length ws) eqn:Hfit.
    + destruct (text_eqb _ _) eqn:Heq.
      * destruct (IH (pos + l) (S r0)) as (n & Hn & Hw).
        exists (S n). split; [lia|]. intros [|j] Hj.
        -- simpl. rewrite Nat.add_0_r. split.
           ++ apply Nat.leb_le, Hfit.
           ++ apply text_eqb_eq, Heq.
        -- destruct (Hw j ltac:(lia)) as [H1 H2].
           replace (pos + S j * l) with (pos + l + j * l) by lia.
           split; assumption.
      * exists 0. split; [lia | intros j Hj; lia].
    + exists 0. split; [lia | intros j Hj; lia].
Qed.

(** Three windows that fit and match bring the count to 4 and more. *)
Lemma count_repetitions_three (phrase : text) (l f pos : nat)
      (ws : list text) :
  3 <= f -> pos + 3 * l <= length ws ->
  lower phrase = lower (join (slice pos (pos + l) ws)) ->
  lower phrase = lower (join (slice (pos + l) (pos + l + l) ws)) ->
  lower phrase = lower (join (slice (pos + l + l) (pos + l + l + l) ws)) ->
  3 < count_repetitions f phrase l ws pos 1.
Proof.
  intros Hf Hfit E1 E2 E3.
  destruct f as [|[|[|f]]]; try lia.
  assert (F1 : (pos + l <=? length ws) = true) by (apply Nat.leb_le; lia).
  assert (F2 : (pos + l + l <=? length ws) = true) by (apply Nat.leb_le; lia).
  assert (F3 : (pos + l + l + l <=? length ws) = true)
    by (apply Nat.leb_le; lia).
  cbn [count_repetitions].
  rewrite F1, <- E1, text_eqb_refl, F2, <- E2, text_eqb_refl.
  rewrite F3, <- E3, text_eqb_refl.
  destruct (count_repetitions_spec phrase l ws f (pos + l + l + l) 4)
    as (n & -> & _).
  lia.
Qed.

(** What a cut of the scan looks like.  When the body of the scan
    cuts at position [i] for window length [l], it has counted [r] windows
    in a row, more than 3, all inside the words and all equal to the first
    when case is ignored; it keeps the words up to the end of the first
    window as they are written, leaves out the [r - 1] windows behind it,
    and keeps the rest: the words get shorter by [(r - 1) * l]. *)
Lemma try_position_cut (l i : nat) (ws ws' : list text) :
  try_position l ws i = Some ws' ->
  exists r,
    3 < r
    /\ i + r * l <= length ws
    /\ ws' = firstn (i + l) ws ++ skipn (i + r * l) ws
    /\ (forall k, k < r -> window l (i + k * l) ws = window l i ws)
    /\ length ws' + (r - 1) * l = length ws.
Proof.
  unfold try_position.
  destruct (eligible (join (slice i (i + l) ws))) eqn:He; [|discriminate].
  destruct (count_repetitions_spec (join (slice i (i + l) ws)) l ws
              (length ws) (i + l) 1) as (n & Hc & Hw).
  rewrite Hc. destruct (3 <? 1 + n) eqn:H3; [|discriminate].
  apply Nat.ltb_lt in H3. intros [= <-].
  assert (Hl : 0 < l).
  { destruct l; [|lia]. unfold slice in He.
    replace (i + 0 - i) with 0 in He by lia. discriminate He. }
  assert (Hend : i + (1 + n) * l <= length ws).
  { destruct (Hw (n - 1) ltac:(lia)) as [H _]. nia. }
  exists (1 + n). repeat split.
  - exact H3.
  - exact Hend.
  - f_equal. f_equal. nia.
  - intros k Hk. destruct k as [|j].
    + simpl. rewrite Nat.add_0_r. reflexivity.
    + destruct (Hw j ltac:(lia)) as [_ E]. unfold window.
      replace (i + S j * l) with (i + l + j * l) by lia.
      symmetry. exact E.
  - rewrite length_app, length_firstn, length_skipn. nia.
Qed.

(** The body of the scan cuts exactly where an eligible window stands
    four times in a row. *)
Lemma try_position_fires (l i : nat) (ws : list text) :
  fires l ws i = true <-> exists ws', try_position l ws i = Some ws'.
Proof.
  split.
  - unfold fires, stands_four_times, window. intros H.
    apply andb_prop in H as [He H]. apply andb_prop in H as [H E3].
    apply andb_prop in H as [H E2]. apply andb_prop in H as [Hfit E1].
    apply Nat.leb_le in Hfit.
    apply text_eqb_eq in E1, E2, E3.
    assert (Hl : 0 < l).
    { destruct l; [|lia]. unfold slice in He.
      replace (i + 0 - i) with 0 in He by lia. discriminate He. }
    unfold try_position. rewrite He.
    replace (i + 2 * l) with (i + l + l) in E2 by lia.
    replace (i + 3 * l) with (i + l + l + l) in E3 by lia.
    assert (Hc : 3 < count_repetitions (length ws)
                       (join (slice i (i + l) ws)) l ws (i + l) 1).
    { apply count_repetitions_three; try assumption; lia. }
    apply Nat.ltb_lt in Hc. rewrite Hc. eexists. reflexivity.
  - intros (ws' & H).
    assert (He : eligible (join (slice i (i + l) ws)) = true).
    { unfold try_position in H.
      destruct (eligible (join (slice i (i + l) ws))); [reflexivity|].
      discriminate H. }
    destruct (try_position_cut l i ws ws' H) as (r & Hr & Hend & _ & Hw & _).
    unfold fires, stands_four_times. rewrite He.
    replace (i + 4 * l <=? length ws) with true
      by (symmetry; apply Nat.leb_le; nia).
    pose proof (Hw 1 ltac:(lia)) as W1.
    pose proof (Hw 2 ltac:(lia)) as W2.
    pose proof (Hw 3 ltac:(lia)) as W3.
    replace (i + 1 * l) with (i + l) in W1 by lia.
    rewrite W1, W2, W3, !text_eqb_refl. reflexivity.
Qed.

Lemma fires_in_range (l i : nat) (ws : list text) :
  fires l ws i = true -> 0 < l /\ i < length ws - l * 3.
Proof.
  intros H. apply try_position_fires in H as (ws' & H).
  destruct (try_position_cut l i ws ws' H) as (r & Hr & Hend & _ & _ & Hlen).
  assert (Hl : 0 < l).
  { destruct l; [|lia]. unfold try_position, slice in H.
    replace (i + 0 - i) with 0 in H by lia. discriminate H. }
  split; [exact Hl | nia].
Qed.

(** A pass of the scan: nothing cut at any position, or the cut of the
    first position that cuts. *)
Lemma scan_positions_cases (l : nat) (ws : list text) (ps : list nat) :
  (scan_positions l ws ps = ws
   /\ forall j, In j ps -> try_position l ws j = None)
  \/ exists j ws',
       In j ps /\ try_position l ws j = Some ws'
       /\ scan_positions l ws ps = ws'.
Proof.
  induction ps as [|p ps IH]; simpl.
  - left. split; [reflexivity | intros j []].
  - destruct (try_position l ws p) as [ws'|] eqn:E.
    + right. exists p, ws'. repeat split; auto.
    + destruct IH as [[H1 H2] | (j & ws' & Hj & Ht & Hs)].
      * left. split; [exact H1|]. intros j [<- | Hj]; auto.
      * right. exists j, ws'. repeat split; auto.
Qed.







Lemma text_eqb_neq (a b : text) : text_eqb a b = false -> a <> b.
Proof.
  unfold text_eqb. destruct (list_eq_dec ascii_dec a b); [discriminate | auto].
Qed.

(** With its fuel the [while] loop goes to its own end: it counts the
    whole run of windows equal to the phrase and stops at a window that
    does not fit or is not equal. *)
Lemma count_repetitions_stop (phrase : text) (l : nat) (ws : list text) :
  0 < l ->
  forall (f pos r0 : nat),
    length ws < pos + l + f ->
    exists n,
      count_repetitions f phrase l ws pos r0 = r0 + n
      /\ (forall j, j < n ->
            pos + j * l + l <= length ws
            /\ lower phrase
               = lower (join (slice (pos + j * l) (pos + j * l + l) ws)))
      /\ (pos + n * l + l <= length ws ->
          lower phrase
          <> lower (join (slice (pos + n * l) (pos + n * l + l) ws))).
Proof.
  intros Hl. induction f as [|f IH]; intros pos r0 Hf.
  - exists 0. simpl. split; [lia|]. split; [intros j Hj; lia|].
    intros H. lia.
  - simpl. destruct (pos + l <=? length ws) eqn:Hfit.
    + apply Nat.leb_le in Hfit. destruct (text_eqb _ _) eqn:Heq.
      * destruct (IH (pos + l) (S r0) ltac:(lia)) as (n & Hn & Hw & Hs).
        exists (S n). split; [lia|]. split.
        -- intros [|j] Hj.
           ++ simpl. rewrite Nat.add_0_r. split; [exact Hfit|].
              apply text_eqb_eq, Heq.
           ++ replace (pos + S j * l) with (pos + l + j * l) by lia.
              apply Hw. lia.
        -- replace (pos + S n * l) with (pos + l + n * l) by lia. exact Hs.
      * exists 0. simpl. rewrite !Nat.add_0_r.
        split; [lia|]. split; [intros j Hj; lia|].
        intros _. apply text_eqb_neq, Heq.
    + apply Nat.leb_gt in Hfit. exists 0. simpl.
      split; [lia|]. split; [intros j Hj; lia|]. intros H. lia.
Qed.

Lemma try_position_positive (l i : nat) (ws ws' : list text) :
  try_position l ws i = Some ws' -> 0 < l.
Proof.
  intros H. destruct l; [|lia]. unfold try_position, slice in H.
  replace (i + 0 - i) with 0 in H by lia. discriminate H.
Qed.

(** The cut takes the whole run: the window behind it is not one more
    copy. *)
Lemma try_position_run_end (l i : nat) (ws ws' : list text) :
  try_position l ws i = Some ws' ->
  exists r,
    3 < r
    /\ i + r * l <= length ws
    /\ ws' = firstn (i + l) ws ++ skipn (i + r * l) ws
    /\ (forall k, k < r -> window l (i + k * l) ws = window l i ws)
    /\ (i + r * l + l <= length ws ->
        window l (i + r * l) ws <> window l i ws).
Proof.
  intros H. pose proof (try_position_positive l i ws ws' H) as Hl.
  revert H. unfold try_position.
  destruct (eligible (join (slice i (i + l) ws))) eqn:He; [|discriminate].
  destruct (count_repetitions_stop (join (slice i (i + l) ws)) l ws Hl
              (length ws) (i + l) 1 ltac:(lia))
    as (n & Hc & Hw & Hs).
  rewrite Hc. destruct (3 <? 1 + n) eqn:H3; [|discriminate].
  apply Nat.ltb_lt in H3. intros [= <-].
  exists (1 + n). split; [exact H3|]. split; [|split; [|split]].
  - destruct (Hw (n - 1) ltac:(lia)) as [H _]. nia.
  - f_equal. f_equal. nia.
  - intros k Hk. destruct k as [|j].
    + simpl. rewrite Nat.add_0_r. reflexivity.
    + unfold window. replace (i + S j * l) with (i + l + j * l) by lia.
      symmetry. apply Hw. lia.
  - intros Hfit E. unfold window in E.
    replace (i + (1 + n) * l) with (i + l + n * l) in * by lia.
    apply Hs; [exact Hfit | symmetry; exact E].
Qed.

Lemma scan_positions_seq_cases (l : nat) (ws : list text) :
  forall (n a : nat),
    (scan_positions l ws (seq a n) = ws
     /\ forall j, a <= j < a + n -> try_position l ws j = None)
    \/ exists i ws',
         a <= i < a + n
         /\ (forall j, a <= j < i -> try_position l ws j = None)
         /\ try_position l ws i = Some ws'
         /\ scan_positions l ws (seq a n) = ws'.
Proof.
  induction n as [|n IH]; intros a; simpl.
  - left. split; [reflexivity | intros j Hj; lia].
  - destruct (try_position l ws a) as [ws'|] eqn:E.
    + right. exists a, ws'.
      split; [lia|]. split; [intros j Hj; lia|]. split; [exact E | reflexivity].
    + destruct (IH (S a)) as [[H1 H2] | (i & ws' & Hi & Hb & Ht & Hs)].
      * left. split; [exact H1|]. intros j Hj.
        destruct (Nat.eq_dec j a) as [-> | Hne]; [exact E | apply H2; lia].
      * right. exists i, ws'. split; [lia|]. split.
        -- intros j Hj.
           destruct (Nat.eq_dec j a) as [-> | Hne]; [exact E | apply Hb; lia].
        -- split; [exact Ht | exact Hs].
Qed.

Lemma fires_false_none (l i : nat) (ws : list text) :
  try_position l ws i = None -> fires l ws i = false.
Proof.
  intros H. destruct (fires l ws i) eqn:F; [|reflexivity].
  apply try_position_fires in F as (ws' & F). congruence.
Qed.

(** X1.  A pass of the scan at one window length.  Either no eligible
    window stands four times in a row anywhere and the words stay as they
    are, or the pass cuts once, at the first position [i] where one does:
    it keeps the words up to the end of the first window as they are
    written, leaves out the whole run of [r - 1] further windows that
    are equal to it when case is ignored ([r > 3]; the window behind the
    run is not one more copy), and keeps all the words behind the run, a
    later run of this window length included. *)
Theorem pass_cuts_first_run (ws : list text) (l : nat) :
  (collapse_phrase_len ws l = ws /\ forall i, fires l ws i = false)
  \/ exists i r,
       fires l ws i = true
       /\ (forall j, j < i -> fires l ws j = false)
       /\ 3 < r
       /\ i + r * l <= length ws
       /\ collapse_phrase_len ws l
          = firstn (i + l) ws ++ skipn (i + r * l) ws
       /\ (forall k, k < r -> window l (i + k * l) ws = window l i ws)
       /\ (i + r * l + l <= length ws ->
           window l (i + r * l) ws <> window l i ws).
Proof.
  unfold collapse_phrase_len.
  destruct (scan_positions_seq_cases l ws (length ws - l * 3) 0)
    as [[H1 H2] | (i & ws' & Hi & Hb & Ht & Hs)].
  - left. split; [exact H1|]. intros i.
    destruct (fires l ws i) eqn:F; [|reflexivity].
    destruct (fires_in_range l i ws F) as [_ Hr].
    apply try_position_fires in F as (ws' & F).
    rewrite H2 in F by lia. discriminate F.
  - right. destruct (try_position_run_end l i ws ws' Ht)
      as (r & Hr & Hend & E & Hw & Hstop).
    exists i, r.
    split; [apply try_position_fires; exists ws'; exact Ht|].
    split; [intros j Hj; apply fires_false_none, Hb; lia|].
    split; [exact Hr|]. split; [exact Hend|].
    split; [rewrite Hs; exact E|]. split; [exact Hw | exact Hstop].
Qed.

(** ** What the sanitizer keeps *)

Lemma sublist_refl {A : Type} (l : list A) : sublist l l.
Proof. induction l; constructor; assumption. Qed.

Lemma sublist_trans {A : Type} (a b c : list A) :
  sublist a b -> sublist b c -> sublist a c.
Proof.
  intros Hab Hbc. revert a Hab.
  induction Hbc as [|x b c _ IH|x b c _ IH]; intros a Hab.
  - exact Hab.
  - inversion Hab; subst.
    + apply sublist_keep. auto.
    + apply sublist_drop. auto.
  - apply sublist_drop. auto.
Qed.

Lemma sublist_skipn {A : Type} (n : nat) (l : list A) : sublist (skipn n l) l.
Proof.
  revert n. induction l as [|x l IH]; intros [|n]; simpl;
    try apply sublist_refl.
  apply sublist_drop, IH.
Qed.

Lemma sublist_cut {A : Type} (l : list A) :
  forall a b, a <= b -> sublist (firstn a l ++ skipn b l) l.
Proof.
  induction l as [|x l IH]; intros a b Hab.
  - rewrite firstn_nil, skipn_nil. constructor.
  - destruct a as [|a].
    + simpl firstn. simpl app. apply sublist_skipn.
    + destruct b as [|b]; [lia|]. simpl. apply sublist_keep, IH. lia.
Qed.

Lemma sublist_length {A : Type} (a b : list A) :
  sublist a b -> length a <= length b.
Proof. induction 1; simpl; lia. Qed.

Lemma try_position_sublist (l i : nat) (ws ws' : list text) :
  try_position l ws i = Some ws' -> sublist ws' ws.
Proof.
  unfold try_position.
  destruct (eligible _); [|discriminate].
  destruct (3 <? _); [|discriminate].
  intros [= <-]. apply sublist_cut. apply Nat.le_add_r.
Qed.

Lemma collapse_phrase_len_sublist (ws : list text) (l : nat) :
  sublist (collapse_phrase_len ws l) ws.
Proof.
  unfold collapse_phrase_len.
  destruct (scan_positions_cases l ws (seq 0 (length ws - l * 3)))
    as [[-> _] | (j & ws' & _ & Ht & ->)].
  - apply sublist_refl.
  - apply (try_position_sublist l j), Ht.
Qed.

Lemma collapse_repetitions_sublist (ws : list text) :
  sublist (collapse_repetitions ws) ws.
Proof.
  unfold collapse_repetitions.
  destruct (20 <? length ws); [|apply sublist_refl].
  generalize (seq 3 5). intros ls. revert ws.
  induction ls as [|l ls IH]; intros ws; simpl; [apply sublist_refl|].
  eapply sublist_trans; [apply IH | apply collapse_phrase_len_sublist].
Qed.

(** X3.  The sanitizer invents no words and keeps their order.  The
    words it joins are words of the text after the numeric strip, with
    some left out; when the joined words are within the length limit, the
    words of the output are exactly these. *)
Theorem sanitizer_keeps_words (t : text) :
  sublist (clean_words t) (split (strip_numeric_runs t))
  /\ length (clean_words t) <= length (split t)
  /\ (length (join (clean_words t)) <= max_length ->
      split (clean_transcription_text t) = clean_words t).
Proof.
  pose proof (collapse_repetitions_sublist (split (strip_numeric_runs t)))
    as Hs.
  split; [exact Hs|]. split.
  - apply sublist_length in Hs. pose proof (strip_numeric_runs_words t).
    unfold clean_words. lia.
  - intros Hlen. rewrite clean_unguarded, (limit_length_short _ Hlen).
    rewrite (strip_join _ (clean_words_ok t)).
    apply split_join, clean_words_ok.
Qed.

Lemma split_nil_spaces (s : text) : split s = [] -> forallb is_space s = true.
Proof.
  induction s as [|c s IH]; [reflexivity|]. simpl.
  destruct (is_space c); [exact IH|].
  destruct (starts_word s).
  - destruct (split s); discriminate.
  - discriminate.
Qed.

Lemma collapse_phrase_len_nil (ws : list text) (l : nat) :
  collapse_phrase_len ws l = [] -> ws = [].
Proof.
  unfold collapse_phrase_len.
  destruct (scan_positions_cases l ws (seq 0 (length ws - l * 3)))
    as [[-> _] | (j & ws' & _ & Ht & ->)]; [auto|].
  intros ->. exfalso.
  pose proof (try_position_positive l j ws [] Ht) as Hl.
  destruct (try_position_cut l j ws [] Ht) as (r & Hr & Hend & E & _).
  apply (f_equal (@length text)) in E.
  rewrite length_app, length_firstn in E. simpl in E. nia.
Qed.

Lemma collapse_repetitions_nil (ws : list text) :
  collapse_repetitions ws = [] -> ws = [].
Proof.
  unfold collapse_repetitions. destruct (20 <? length ws); [|auto].
  generalize (seq 3 5). intros ls. revert ws.
  induction ls as [|l ls IH]; intros ws; simpl; [auto|].
  intros H. apply IH in H. apply collapse_phrase_len_nil in H. exact H.
Qed.

(** X4.  The output is empty exactly when the numeric strip leaves
    nothing but whitespace: empty input, whitespace, and text that is
    numeric runs and whitespace only. *)
Theorem empty_output_iff (t : text) :
  clean_transcription_text t = []
  <-> forallb is_space (strip_numeric_runs t) = true.
Proof.
  split.
  - intros H. apply split_nil_spaces, collapse_repetitions_nil.
    fold (clean_words t).
    destruct (clean_words t) as [|w ws] eqn:E; [reflexivity|]. exfalso.
    pose proof (clean_words_ok t) as Hok. rewrite clean_unguarded in H.
    rewrite E in *.
    destruct (Nat.le_gt_cases (length (join (w :: ws))) max_length)
      as [Hlen | Hlen].
    + rewrite (limit_length_short _ Hlen), (strip_join _ Hok) in H.
      pose proof (join_starts (w :: ws) ltac:(discriminate) Hok) as Hs.
      rewrite H in Hs. discriminate Hs.
    + rewrite (limit_length_long _ Hlen) in H.
      destruct (limit_cut_words _ _ Hok max_length_pos Hlen)
        as (ws' & Hw & E').
      rewrite E', (strip_join _ Hw), <- E' in H.
      apply (f_equal (@length ascii)) in H. rewrite length_app in H.
      simpl in H. lia.
  - intros H. rewrite clean_unguarded. unfold clean_words.
    rewrite (split_spaces _ H). reflexivity.
Qed.

(** X5.  The shape of the output: no whitespace at either end, and
    between two words a single SPACE, whatever whitespace the input had;
    splitting the output and joining it again gives it back. *)
Theorem output_single_spaced (t : text) :
  strip (clean_transcription_text t) = clean_transcription_text t
  /\ join (split (clean_transcription_text t)) = clean_transcription_text t
  /\ forallb (fun c => negb (is_space c) || Ascii.eqb c " ")
             (clean_transcription_text t) = true.
Proof.
  destruct (clean_normal t) as (ws & Hok & ->).
  split; [apply strip_join, Hok|]. split.
  - rewrite (split_join ws Hok). reflexivity.
  - apply join_chars, Hok.
Qed.

(** ** What the numeric strip takes *)

Lemma digit_not_comma (c : ascii) :
  is_digit c = true -> Ascii.eqb c "," = false.
Proof.
  destruct c as [[] [] [] [] [] [] [] []]; vm_compute;
    intros H; try reflexivity; discriminate H.
Qed.

Lemma lstrip_taken (s : text) :
  exists sp, s = sp ++ lstrip s /\ forallb is_space sp = true.
Proof.
  induction s as [|c s IH].
  - exists []. split; reflexivity.
  - simpl. destruct (is_space c) eqn:Hc.
    + destruct IH as (sp & E & Hsp). exists (c :: sp). split.
      * simpl. f_equal. exact E.
      * simpl. rewrite Hc. exact Hsp.
    + exists []. split; reflexivity.
Qed.

Lemma commas_app (a b : text) : commas (a ++ b) = commas a + commas b.
Proof. unfold commas. rewrite filter_app, length_app. reflexivity. Qed.

Lemma commas_digits (a : text) : forallb is_digit a = true -> commas a = 0.
Proof.
  induction a as [|c a IH]; [reflexivity|]. simpl. intros H.
  apply andb_prop in H as [Hc Ha]. unfold commas in *. simpl.
  rewrite (digit_not_comma c Hc). apply IH, Ha.
Qed.

Lemma commas_spaces (a : text) : forallb is_space a = true -> commas a = 0.
Proof.
  induction a as [|c a IH]; [reflexivity|]. simpl. intros H.
  apply andb_prop in H as [Hc Ha]. unfold commas in *. simpl.
  rewrite (space_not_comma c Hc). apply IH, Ha.
Qed.

(** What one round of the group takes: digits, one comma, whitespace. *)
Lemma match_group_taken (s r : text) :
  match_group s = Some r ->
  exists used,
    s = used ++ r /\ forallb numeric_char used = true /\ commas used = 1.
Proof.
  unfold match_group.
  destruct (span is_digit s) as [a b] eqn:E.
  destruct a as [|d a]; [discriminate|].
  destruct b as [|c b]; [discriminate|].
  destruct (Ascii.eqb c ",") eqn:Hc; [|discriminate].
  intros [= <-].
  pose proof (span_all _ _ _ _ E) as Ha. apply span_app_eq in E.
  destruct (lstrip_taken b) as (sp & Eb & Hsp).
  exists ((d :: a) ++ c :: sp). split; [|split].
  - rewrite <- app_assoc. simpl. rewrite <- Eb. exact E.
  - rewrite forallb_app. apply andb_true_intro. split.
    + rewrite forallb_forall in *. intros x Hx. unfold numeric_char.
      rewrite (Ha x Hx). reflexivity.
    + simpl. unfold numeric_char at 1. rewrite Hc, orb_true_r. simpl.
      rewrite forallb_forall in *. intros x Hx. unfold numeric_char.
      rewrite (Hsp x Hx). apply orb_true_r.
  - rewrite commas_app, (commas_digits _ Ha).
    change (c :: sp) with ([c] ++ sp). rewrite commas_app, (commas_spaces _ Hsp).
    unfold commas. simpl. rewrite Hc. reflexivity.
Qed.

Lemma match_groups_taken (f : nat) :
  forall (s r : text) (k : nat),
    match_groups f s = (k, r) ->
    exists used,
      s = used ++ r /\ forallb numeric_char used = true /\ commas used = k.
Proof.
  induction f as [|f IH]; intros s r k; simpl.
  - intros [= <- <-]. exists []. repeat split.
  - destruct (match_group s) as [r1|] eqn:E.
    + destruct (match_groups f r1) as [k1 r2] eqn:E2. intros [= <- <-].
      destruct (match_group_taken s r1 E) as (u1 & -> & H1 & C1).
      destruct (IH r1 r2 k1 E2) as (u2 & -> & H2 & C2).
      exists (u1 ++ u2). split; [apply app_assoc|]. split.
      * rewrite forallb_app, H1, H2. reflexivity.
      * rewrite commas_app. lia.
    + intros [= <- <-]. exists []. repeat split.
Qed.

Lemma match_numeric_run_taken (s r : text) :
  match_numeric_run s = Some r ->
  exists used,
    s = used ++ r /\ forallb numeric_char used = true /\ 10 <= commas used.
Proof.
  unfold match_numeric_run.
  destruct (match_groups (length s) s) as [k r1] eqn:E.
  destruct (10 <=? k) eqn:Hk; [|discriminate]. intros [= <-].
  apply Nat.leb_le in Hk.
  destruct (match_groups_taken _ _ _ _ E) as (used & Hs & Hn & Hc).
  exists used. repeat split; try assumption. lia.
Qed.

Lemma filter_numeric (used r : text) :
  forallb numeric_char used = true ->
  filter (fun c => negb (numeric_char c)) (used ++ r)
  = filter (fun c => negb (numeric_char c)) r.
Proof.
  intros H. rewrite filter_app.
  replace (filter (fun c => negb (numeric_char c)) used) with (@nil ascii);
    [reflexivity|].
  symmetry. induction used as [|c u IH]; [reflexivity|].
  simpl in *. apply andb_prop in H as [Hc Hu]. rewrite Hc. simpl. auto.
Qed.

Lemma sub_runs_keeps (f : nat) :
  forall s : text,
    filter (fun c => negb (numeric_char c)) (sub_runs f s)
    = filter (fun c => negb (numeric_char c)) s.
Proof.
  induction f as [|f IH]; intros s; simpl; [reflexivity|].
  destruct (match_numeric_run s) as [r|] eqn:E.
  - destruct (match_numeric_run_taken s r E) as (used & -> & Hn & _).
    rewrite IH, filter_numeric by exact Hn. reflexivity.
  - destruct s as [|c s]; [reflexivity|]. simpl. rewrite IH. reflexivity.
Qed.

(** X6.  The numeric strip takes digits, commas and whitespace and
    nothing else: the characters of any other kind come out as they went
    in, all of them and in their order; and what comes out is the input
    with characters left out. *)
Theorem numeric_strip_takes_numeric_only (t : text) :
  filter (fun c => negb (numeric_char c)) (strip_numeric_runs t)
  = filter (fun c => negb (numeric_char c)) t
  /\ subseq (strip_numeric_runs t) t.
Proof.
  split; [apply sub_runs_keeps | apply strip_numeric_runs_subseq].
Qed.

Lemma sub_runs_few_commas (f : nat) :
  forall s : text, commas s < 10 -> sub_runs f s = s.
Proof.
  induction f as [|f IH]; intros s H; simpl; [reflexivity|].
  destruct (match_numeric_run s) as [r|] eqn:E.
  - exfalso. destruct (match_numeric_run_taken s r E) as (used & -> & _ & Hc).
    rewrite commas_app in H. lia.
  - destruct s as [|c s]; [reflexivity|]. f_equal. apply IH.
    change (c :: s) with ([c] ++ s) in H. rewrite commas_app in H. lia.
Qed.

(** X7.  A text with fewer than ten commas has no numeric run: the strip
    leaves it as it is, and the sanitizer goes on with its words. *)
Theorem few_commas_untouched (t : text) :
  commas t < 10 ->
  strip_numeric_runs t = t
  /\ clean_words t = collapse_repetitions (split t).
Proof.
  intros H.
  assert (E : strip_numeric_runs t = t) by (apply sub_runs_few_commas, H).
  split; [exact E|]. unfold clean_words. rewrite E. reflexivity.
Qed.

Lemma few_commas_untouched_witness :
  strip_numeric_runs (str "in 1990, 1991, 1992, and 2001, we met, twice")
  = str "in 1990, 1991, 1992, and 2001, we met, twice".
Proof.
  apply (few_commas_untouched
           (str "in 1990, 1991, 1992, and 2001, we met, twice")).
  vm_compute. lia.
Defined.

(** ** The request handler, request by request *)

Section HandlerFacts.

Import Pipeline Threads.

Variable w : world.

Lemma clean_length_bound (t : text) :
  length (clean_transcription_text t) <= max_length + length ellipsis.
Proof.
  rewrite clean_unguarded.
  pose proof (strip_length (limit_length (join (clean_words t)))).
  pose proof (limit_length_bound (join (clean_words t))). lia.
Qed.

(** X8.  Failure and success never mix.  The answer of [transcribe_file]
    has the error shape or the success shape and never both; the server
    answers with an error exactly when the file does not exist or the
    model raises, the standalone server also when the model's result
    cannot be unpacked. *)
Theorem transcribe_file_error_iff (f : text) (st : state) :
  let r := fst (transcribe_file w f st) in
  let r' := fst (transcribe_file_standalone w f st) in
  is_success r = negb (is_error r)
  /\ is_success r' = negb (is_error r')
  /\ (is_error r = true <->
      files w f = None
      \/ (needs_model w f = true /\ exists msg, model w f = Raises msg))
  /\ (is_error r' = true <->
      files w f = None
      \/ (needs_model w f = true
          /\ exists msg, model w f = Raises msg
                         \/ model w f = Unexpected msg)).
Proof.
  unfold transcribe_file, transcribe_file_standalone, needs_model.
  destruct (files w f) as [size|]; simpl.
  - destruct (size <? small_file_threshold)%Z; simpl.
    + repeat split; try discriminate; intros [H | [H _]]; discriminate.
    + unfold bind, time_time, model_transcribe, ret. simpl.
      destruct (model w f) as [segs | msg | msg] eqn:E; simpl.
      * repeat split; try discriminate.
        -- intros [H | [_ [m H]]]; discriminate.
        -- intros [H | [_ [m [H | H]]]]; discriminate.
      * repeat split; try discriminate; auto.
        -- intros [H | [_ [m H]]]; discriminate.
        -- intros _. right. split; [reflexivity|]. exists msg. now right.
      * repeat split; auto.
        -- intros _. right. split; [reflexivity|]. exists msg. reflexivity.
        -- intros _. right. split; [reflexivity|]. exists msg. now left.
  - repeat split; auto.
Qed.

Lemma action_is_name (a : text) (name : string) :
  action_is (Some a) name = true -> a = str name.
Proof. apply text_eqb_eq. Qed.

(** X9.  One connection, at most one call of the model.  Whatever the
    payload, the handler of either server leaves the state (the log of
    model calls and the clock) as it found it, unless the payload is a
    transcribe request for a file that exists and has 1000 bytes or more:
    then the model is called once, on that file.  A ping, [info], an
    unknown action and a payload that is not a request never reach the
    model. *)
Theorem handler_calls_model_once (p : payload) (st : state) :
  (snd (handle_client w p st) = st
   /\ snd (handle_client_standalone w p st) = st)
  \/ exists f,
       p = Object (Some (str "transcribe")) (Some f)
       /\ needs_model w f = true
       /\ model_calls (snd (handle_client w p st)) = model_calls st ++ [f]
       /\ model_calls (snd (handle_client_standalone w p st))
          = model_calls st ++ [f].
Proof.
  destruct p as [msg | action file]; [left; split; reflexivity|].
  unfold handle_client, handle_client_standalone, dispatch.
  destruct (action_is action "transcribe") eqn:Ha.
  - destruct file as [f|]; [|left; split; reflexivity].
    destruct action as [a|]; [|discriminate].
    apply action_is_name in Ha. subst a.
    pose proof (transcribe_file_calls w f st) as H1.
    pose proof (transcribe_file_standalone_calls w f st) as H2.
    destruct (needs_model w f) eqn:Hn.
    + right. exists f. repeat split; assumption.
    + left. unfold transcribe_file, transcribe_file_standalone.
      unfold needs_model in Hn.
      destruct (files w f) as [size|]; [|split; reflexivity].
      destruct (size <? small_file_threshold)%Z; [split; reflexivity|].
      discriminate Hn.
  - left. destruct (action_is action "ping"); [split; reflexivity|].
    destruct (action_is action "info"); split; reflexivity.
Qed.

(** X10.  One answer, of one shape.  The answer of the handler of either
    server to any payload has exactly one of the four shapes: an error,
    a transcription, the answer to a ping, the answer to [info]; the
    first server never gives the last. *)
Theorem handler_answer_shape (p : payload) (st : state) :
  shapes (fst (handle_client w p st)) = 1
  /\ shapes (fst (handle_client_standalone w p st)) = 1
  /\ has_key "model" (fst (handle_client w p st)) = false.
Proof.
  destruct p as [msg | action file]; [repeat split; reflexivity|].
  unfold handle_client, handle_client_standalone, dispatch.
  destruct (action_is action "transcribe").
  - destruct file as [f|]; [|repeat split; reflexivity].
    unfold transcribe_file, transcribe_file_standalone.
    destruct (files w f) as [size|]; [|repeat split; reflexivity].
    destruct (size <? small_file_threshold)%Z; [repeat split; reflexivity|].
    unfold bind, time_time, model_transcribe, ret. simpl.
    destruct (model w f); repeat split; reflexivity.
  - destruct (action_is action "ping"); [repeat split; reflexivity|].
    destruct (action_is action "info"); repeat split; reflexivity.
Qed.


(** X12.  A transcription in an answer is a sanitized text.  When
    [transcribe_file] of either server answers with a transcription, its
    text has no whitespace at either end and single spaces between its
    words, and it is at most 1000 characters plus the ellipsis long,
    whatever the model gave. *)
Theorem answer_text_sanitized (f : text) (st : state) (t : text) :
  get_value "text" (fst (transcribe_file w f st)) = Some (VStr t)
  \/ get_value "text" (fst (transcribe_file_standalone w f st))
     = Some (VStr t) ->
  join (split t) = t
  /\ strip t = t
  /\ length t <= max_length + length ellipsis.
Proof.
  assert (Hclean : forall x, join (split (clean_transcription_text x))
                             = clean_transcription_text x
                             /\ strip (clean_transcription_text x)
                                = clean_transcription_text x
                             /\ length (clean_transcription_text x)
                                <= max_length + length ellipsis).
  { intros x. destruct (clean_normal x) as (ws & Hok & E).
    pose proof (clean_length_bound x) as Hb. rewrite E in *.
    rewrite (split_join ws Hok), (strip_join ws Hok). auto. }
  assert (Hnil : join (split []) = @nil ascii /\ strip [] = @nil ascii
                 /\ length (@nil ascii) <= max_length + length ellipsis).
  { repeat split. simpl. lia. }
  unfold transcribe_file, transcribe_file_standalone.
  destruct (files w f) as [size|];
    [|intros [H | H]; discriminate H].
  destruct (size <? small_file_threshold)%Z.
  - intros [H | H]; injection H as <-; exact Hnil.
  - unfold bind, time_time, model_transcribe, ret. simpl.
    destruct (model w f) as [segs | msg | msg]; simpl.
    + intros [H | H]; injection H as <-; [|apply Hclean].
      destruct (is_empty segs); [exact Hnil | apply Hclean].
    + intros [H | H]; [injection H as <-; exact Hnil | discriminate H].
    + intros [H | H]; discriminate H.
Qed.

(** X13.  The device [info] reports and the device the model is on.
    [info] says ["cuda"] whenever CUDA is there, [initialize_model] takes
    it only for the compute type ['float16']: the two are the same exactly
    when there is no CUDA or the compute type is ['float16'].  With CUDA
    and another compute type (['float32'] is the default) [info] reports
    ["cuda"] for a model that runs on the CPU. *)
Theorem info_device_iff :
  get_value "device" (model_info w) = Some (VStr (load_device w))
  <-> cuda_available w = false \/ compute_type w = str "float16".
Proof.
  unfold model_info, load_device.
  destruct (cuda_available w);
    destruct (text_eqb (compute_type w) (str "float16")) eqn:E; simpl.
  - split; [intros _; right; apply text_eqb_eq, E | reflexivity].
  - split; [discriminate|]. intros [H | H]; [discriminate|].
    rewrite H, text_eqb_refl in E. discriminate.
  - split; [now left | reflexivity].
  - split; [now left | reflexivity].
Qed.

End HandlerFacts.


Lemma answer_text_sanitized_witness :
  join (split (str "hello world")) = str "hello world"
  /\ strip (str "hello world") = str "hello world"
  /\ length (str "hello world") <= max_length + length ellipsis.
Proof.
  apply (answer_text_sanitized Examples.example_world (str "/tmp/a.wav")
           Pipeline.initial (str "hello world")).
  left. vm_compute. reflexivity.
Defined.

(** ** Start and stop *)

Section LifecycleFacts.

Import Lifecycle.

Variable e : env.

(** X14.  [stop_server] twice is [stop_server] once, and it never leaves
    a socket file; but it removes the PID file only when there was a
    socket file to remove first: without one, a PID file that is there
    stays. *)
Theorem stop_server_idempotent (fs : files) :
  stop_server (stop_server fs) = stop_server fs
  /\ socket_file (stop_server fs) = false
  /\ (pid_file (stop_server fs) = Waybar.NoPidFile
      <-> socket_file fs = true \/ pid_file fs = Waybar.NoPidFile).
Proof.
  destruct fs as [[] p]; unfold stop_server; simpl.
  - repeat split; auto.
  - repeat split; auto. intros [H | H]; [discriminate | exact H].
Qed.

(** X15.  The [stop] command and the files.  [main stop] never touches
    the socket file, and it removes the PID file in one case only: the PID
    in it belongs to no process.  When it does send the termination
    signal, to the PID of a live process, it leaves the PID file in
    place. *)
Theorem stop_command_files (fs : files) :
  let o := main [str "stop"] e fs in
  socket_file (files_after o) = socket_file fs
  /\ (files_after o = fs
      \/ exists pid,
           pid_file fs = Waybar.Pid pid /\ kill e pid = NoSuchProcess
           /\ pid_file (files_after o) = Waybar.NoPidFile
           /\ terminated o = [])
  /\ (forall pid, In pid (terminated o) ->
        pid_file fs = Waybar.Pid pid /\ kill e pid = Delivered
        /\ files_after o = fs /\ printed o = [StoppedServer pid]).
Proof.
  unfold main. rewrite text_eqb_refl. unfold main_stop.
  destruct (pid_file fs) as [| |pid] eqn:Hp; simpl.
  - split; [reflexivity|]. split; [now left | intros pid []].
  - split; [reflexivity|]. split; [now left | intros pid []].
  - destruct (kill e pid) eqn:Hk; simpl.
    + split; [reflexivity|]. split; [now left|].
      intros pid' [<- | []]. repeat split; assumption.
    + split; [reflexivity|]. split; [|intros pid' []].
      right. exists pid. repeat split; assumption.
    + split; [reflexivity|]. split; [now left | intros pid' []].
Qed.


(** X17.  Start, interrupt, start again.  A server that got to its
    accept loop and is ended by [KeyboardInterrupt] leaves neither the
    socket file nor the PID file, and a start after that gets to the
    accept loop again. *)
Theorem interrupt_cleans_up (fs : files) :
  ended (main [] e fs) = Serving ->
  interrupted (main [] e fs)
  = {| socket_file := false; pid_file := Waybar.NoPidFile |}
  /\ ended (main [] e (interrupted (main [] e fs))) = Serving.
Proof.
  intros H. unfold interrupted. rewrite H.
  assert (Hm : model_loads e = true).
  { revert H. unfold main, main_start, main_serve.
    destruct (pid_file fs) as [| |pid]; try discriminate.
    - destruct (model_loads e); [reflexivity | discriminate].
    - destruct (kill e pid); try discriminate.
      destruct (model_loads e); [reflexivity | discriminate]. }
  assert (Hf : files_after (main [] e fs)
               = {| socket_file := true;
                    pid_file := Waybar.Pid (own_pid e) |}).
  { revert H. unfold main, main_start, main_serve.
    destruct (pid_file fs) as [| |pid]; try discriminate.
    - rewrite Hm. reflexivity.
    - destruct (kill e pid); try discriminate. rewrite Hm. reflexivity. }
  rewrite Hf. split; [reflexivity|].
  unfold stop_server, main, main_start, main_serve. simpl. rewrite Hm.
  reflexivity.
Qed.

End LifecycleFacts.

Lemma interrupt_cleans_up_witness :
  Lifecycle.interrupted
    (Lifecycle.main []
       {| Lifecycle.kill := fun _ => Lifecycle.NoSuchProcess;
          Lifecycle.own_pid := 4242; Lifecycle.model_loads := true |}
       {| Lifecycle.socket_file := true;
          Lifecycle.pid_file := Waybar.Pid 17 |})
  = {| Lifecycle.socket_file := false;
       Lifecycle.pid_file := Waybar.NoPidFile |}.
Proof.
  apply (interrupt_cleans_up
           {| Lifecycle.kill := fun _ => Lifecycle.NoSuchProcess;
              Lifecycle.own_pid := 4242; Lifecycle.model_loads := true |}
           {| Lifecycle.socket_file := true;
              Lifecycle.pid_file := Waybar.Pid 17 |}).
  reflexivity.
Defined.

(** ** The status bar *)

Section StatusBarFacts.

Import Waybar StatusBar.



End StatusBarFacts.

(** ** The client *)

Section ClientFacts.

Import Pipeline Client.



(** X19.  What the client copies it prints.  Whatever its arguments, the
    files and the reply: the client hands at most one text to the
    clipboard, that text is not blank and is the one line it prints; it
    asks the server at most once, and only about a file that exists and
    has 1000 bytes or more; and a reply with an ["error"] entry makes it
    leave with status 1, nothing printed and nothing copied, whatever
    else the reply holds. *)
Theorem client_copies_what_it_prints (e : env) (args : list text) :
  let o := main e args in
  (clipboard o = []
   \/ exists t, clipboard o = [t] /\ stdout o = [t]
                /\ is_empty (strip t) = false)
  /\ (requests o = []
      \/ exists f size,
           args = [f] /\ requests o = [f]
           /\ Client.files e f = Some size /\ (1000 <= size)%Z)
  /\ (forall f, requests o = [f] ->
        has_key "error" (reply e f) = true ->
        ended o = Exit 1 /\ stdout o = [] /\ clipboard o = []).
Proof.
  unfold main.
  destruct args as [|f [|g args]]; simpl;
    try (split; [now left|]; split; [now left|]; intros f' H; discriminate H).
  destruct (Client.files e f) as [size|] eqn:Hf; simpl;
    [|split; [now left|]; split; [now left|]; intros f' H; discriminate H].
  destruct (size <? 1000)%Z eqn:Hs; simpl;
    [split; [now left|]; split; [now left|]; intros f' H; discriminate H|].
  apply Z.ltb_ge in Hs.
  assert (Hr : requests (report f (reply e f)) = [f]).
  { unfold report. destruct (has_key "error" (reply e f)); [reflexivity|].
    destruct (get_value "text" (reply e f)) as [[t | z | q]|]; simpl;
      try reflexivity; destruct (is_empty (strip _)); reflexivity. }
  split; [|split].
  - unfold report. destruct (has_key "error" (reply e f)); [now left|].
    destruct (get_value "text" (reply e f)) as [[t | z | q]|]; simpl;
      try (now left).
    destruct (is_empty (strip t)) eqn:Hb; [now left|].
    right. exists t. auto.
  - right. exists f, size. auto.
  - intros f' H. rewrite Hr in H. injection H as <-. intros He.
    unfold report. rewrite He. auto.
Qed.

Variable w : world.




End ClientFacts.


(** ** The configuration *)

Section ConfigFacts.

Import StatusBar Config.

Lemma update_length {A : Type} (l : list A) (n : nat) (a : A) :
  length (update l n a) = length l.
Proof.
  revert n. induction l as [|x l IH]; intros [|n]; simpl; auto.
Qed.

Lemma update_nth_eq {A : Type} (l : list A) (n : nat) (a : A) :
  n < length l -> nth_error (update l n a) n = Some a.
Proof.
  revert n. induction l as [|x l IH]; intros [|n]; simpl; intros H;
    try lia; [reflexivity|]. apply IH. lia.
Qed.

Lemma update_nth_neq {A : Type} (l : list A) (n m : nat) (a : A) :
  m <> n -> nth_error (update l n a) m = nth_error l m.
Proof.
  revert n m. induction l as [|x l IH]; intros [|n] [|m] H; simpl; auto.
  - contradiction.
Qed.

Lemma lookup_set_item (k k' : text) (v : ref) (items : list (text * ref)) :
  lookup k' (set_item k v items)
  = if text_eqb k k' then Some v else lookup k' items.
Proof.
  induction items as [|[k0 v0] items IH]; simpl.
  - reflexivity.
  - destruct (text_eqb k0 k) eqn:E0; simpl.
    + apply text_eqb_eq in E0. subst k0.
      destruct (text_eqb k k'); reflexivity.
    + destruct (text_eqb k0 k') eqn:E1.
      * destruct (text_eqb k k') eqn:E2; [|reflexivity].
        apply text_eqb_eq in E1, E2. subst.
        rewrite text_eqb_refl in E0. discriminate.
      * exact IH.
Qed.

Lemma dict_at_items (h : heap) (r : ref) :
  dict_at h r = true -> exists items, nth_error h r = Some (ODict items).
Proof.
  unfold dict_at. destruct (nth_error h r) as [[items| | | |]|];
    try discriminate. eauto.
Qed.

Lemma dict_at_length (h : heap) (r : ref) :
  dict_at h r = true -> r < length h.
Proof.
  intros H. apply dict_at_items in H. destruct H as [items H].
  apply nth_error_Some. congruence.
Qed.

(** [put] writes one entry, and only one that is not there. *)
Lemma getitem_put (h : heap) (c : ref) (sk : text) (sv : ref)
  (r : ref) (k : text) :
  dict_at h c = true ->
  getitem (put h c sk sv) r k
  = match getitem h r k with
    | Some v => Some v
    | None => if (r =? c) && text_eqb sk k then Some sv else None
    end.
Proof.
  intros Hd. pose proof (dict_at_length h c Hd) as Hlt.
  apply dict_at_items in Hd. destruct Hd as [items Hc].
  unfold put. rewrite Hc. unfold has_item.
  destruct (lookup sk items) as [v0|] eqn:Hsk.
  - destruct (getitem h r k) eqn:E; [reflexivity|].
    destruct (r =? c) eqn:Erc; [|reflexivity].
    apply Nat.eqb_eq in Erc. subst r.
    destruct (text_eqb sk k) eqn:Ek; [|reflexivity].
    apply text_eqb_eq in Ek. subst k.
    unfold getitem in E. rewrite Hc in E. congruence.
  - unfold getitem. destruct (r =? c) eqn:Erc.
    + apply Nat.eqb_eq in Erc. subst r.
      rewrite update_nth_eq by exact Hlt. rewrite Hc.
      rewrite lookup_set_item. simpl.
      destruct (text_eqb sk k) eqn:Ek.
      * apply text_eqb_eq in Ek. subst k. rewrite Hsk. reflexivity.
      * destruct (lookup k items); reflexivity.
    + apply Nat.eqb_neq in Erc. rewrite update_nth_neq by exact Erc.
      simpl. destruct (nth_error h r) as [[its| | | |]|]; try reflexivity.
      destruct (lookup k its); reflexivity.
Qed.

Lemma nth_error_put_other (h : heap) (c : ref) (sk : text) (sv : ref)
  (r : ref) :
  r <> c -> nth_error (put h c sk sv) r = nth_error h r.
Proof.
  intros H. unfold put.
  destruct (nth_error h c) as [[items| | | |]|]; try reflexivity.
  destruct (has_item sk items); [reflexivity|].
  apply update_nth_neq. exact H.
Qed.

Lemma dict_at_put (h : heap) (c : ref) (sk : text) (sv : ref) (r : ref) :
  dict_at (put h c sk sv) r = dict_at h r.
Proof.
  destruct (Nat.eq_dec r c) as [->|Hne].
  - unfold dict_at, put.
    destruct (nth_error h c) as [[items| | | |]|] eqn:Hc;
      try (rewrite Hc; reflexivity).
    destruct (has_item sk items); [rewrite Hc; reflexivity|].
    rewrite update_nth_eq; [reflexivity|].
    apply nth_error_Some. congruence.
  - unfold dict_at. rewrite nth_error_put_other by exact Hne. reflexivity.
Qed.

Lemma dict_at_fill (items : list (text * ref)) (h : heap) (c r : ref) :
  dict_at (fill h c items) r = dict_at h r.
Proof.
  unfold fill. revert h.
  induction items as [|[sk sv] items IH]; intros h; simpl.
  - reflexivity.
  - rewrite IH. apply dict_at_put.
Qed.

Lemma nth_error_fill_other (items : list (text * ref)) (h : heap)
  (c r : ref) :
  r <> c -> nth_error (fill h c items) r = nth_error h r.
Proof.
  intros H. unfold fill. revert h.
  induction items as [|[sk sv] items IH]; intros h; simpl.
  - reflexivity.
  - rewrite IH. apply nth_error_put_other. exact H.
Qed.

Lemma getitem_fill (items : list (text * ref)) (h : heap) (c : ref)
  (r : ref) (k : text) :
  dict_at h c = true ->
  getitem (fill h c items) r k
  = match getitem h r k with
    | Some v => Some v
    | None => if r =? c then lookup k items else None
    end.
Proof.
  unfold fill. revert h.
  induction items as [|[sk sv] items IH]; intros h Hd; simpl.
  - destruct (getitem h r k); [reflexivity|].
    destruct (r =? c); reflexivity.
  - rewrite IH by (rewrite dict_at_put; exact Hd).
    rewrite getitem_put by exact Hd.
    destruct (getitem h r k); [reflexivity|].
    destruct (r =? c); simpl; [|reflexivity].
    destruct (text_eqb sk k); reflexivity.
Qed.

(** The inner loop on a section that is a mapping. *)
Lemma merge_subkeys_dict (config : ref) (key : text) (c : ref)
  (items : list (text * ref)) (h : heap) :
  getitem h config key = Some c ->
  dict_at h c = true ->
  for_each (merge_subkey config key) items h = Done (fill h c items).
Proof.
  revert h. induction items as [|[sk sv] items IH]; intros h Hg Hd.
  - reflexivity.
  - assert (E : merge_subkey config key (sk, sv) h = Done (put h c sk sv)).
    { unfold merge_subkey. rewrite Hg. unfold contains, setitem, put.
      destruct (dict_at_items h c Hd) as [its Hc]. rewrite Hc.
      destruct (has_item sk its); reflexivity. }
    cbn [for_each]. rewrite E.
    change (fill h c ((sk, sv) :: items))
      with (fill (put h c sk sv) c items).
    rewrite IH.
    + reflexivity.
    + rewrite getitem_put by exact Hd. rewrite Hg. reflexivity.
    + rewrite dict_at_put. exact Hd.
Qed.

(** The inner loop on a section on which [in] raises. *)
Lemma merge_subkeys_scalar (config : ref) (key : text) (c : ref)
  (item : text * ref) (items : list (text * ref)) (h : heap) :
  getitem h config key = Some c ->
  scalar_at h c = true ->
  for_each (merge_subkey config key) (item :: items) h = Raised h.
Proof.
  intros Hg Hs. destruct item as [sk sv]. simpl. rewrite Hg.
  unfold contains. unfold scalar_at in Hs.
  destruct (nth_error h c) as [[its| | | |]|]; try discriminate;
    reflexivity.
Qed.


Lemma contains_dict (h : heap) (r : ref) (k : text) :
  dict_at h r = true ->
  contains h r k = Some (match getitem h r k with
                         | Some _ => true
                         | None => false
                         end).
Proof.
  intros Hd. destruct (dict_at_items h r Hd) as [its Hr].
  unfold contains, getitem, has_item. rewrite Hr. reflexivity.
Qed.

(** One round of the outer loop on a document that is a mapping, for a
    section that is not there or is a mapping. *)
Lemma merge_section_dict (config : ref) (key : text) (value : ref)
  (h : heap) :
  dict_at h config = true ->
  dict_at h value = true ->
  (forall c, getitem h config key = Some c -> dict_at h c = true) ->
  exists a l,
    merge_section config (key, value) h = Done (fill h a l)
    /\ dict_at h a = true
    /\ (getitem h config key = None /\ a = config /\ l = [(key, value)]
        \/ getitem h config key = Some a /\ l = items_of h value).
Proof.
  intros Hc Hv Hk. unfold merge_section.
  rewrite contains_dict by exact Hc.
  destruct (getitem h config key) as [c|] eqn:Hg.
  - exists c, (items_of h value).
    destruct (dict_at_items h value Hv) as [its Hvi]. rewrite Hvi.
    rewrite (merge_subkeys_dict config key c) by auto. auto.
  - exists config, [(key, value)]. split; [|auto].
    destruct (dict_at_items h config Hc) as [its Hci].
    unfold setitem, fill, put, getitem, has_item in *. simpl.
    rewrite Hci in *. rewrite Hg. reflexivity.
Qed.

Lemma merge_section_scalar (config : ref) (key : text) (value : ref)
  (c : ref) (h : heap) :
  dict_at h config = true ->
  dict_at h value = true ->
  items_of h value <> [] ->
  getitem h config key = Some c ->
  scalar_at h c = true ->
  merge_section config (key, value) h = Raised h.
Proof.
  intros Hc Hv Hne Hg Hs. unfold merge_section.
  rewrite contains_dict by exact Hc. rewrite Hg.
  destruct (dict_at_items h value Hv) as [its Hvi]. rewrite Hvi.
  destruct (items_of h value) as [|item items] eqn:E; [contradiction|].
  apply (merge_subkeys_scalar config key c); assumption.
Qed.

(** The literal behind a document. *)
Lemma nth_default (h : heap) (i : nat) :
  nth_error (h ++ default_objects (length h)) (length h + i)
  = nth_error (default_objects (length h)) i.
Proof.
  rewrite nth_error_app2 by lia.
  replace (length h + i - length h) with i by lia. reflexivity.
Qed.

Lemma nth_default_first (h : heap) :
  nth_error (h ++ default_objects (length h)) (length h)
  = nth_error (default_objects (length h)) 0.
Proof. rewrite <- nth_default. rewrite Nat.add_0_r. reflexivity. Qed.

Lemma nth_document (h d : heap) (r : ref) :
  r < length h -> nth_error (h ++ d) r = nth_error h r.
Proof. intros H. apply nth_error_app1. exact H. Qed.

Lemma getitem_document (h d : heap) (r : ref) (k : text) :
  r < length h -> getitem (h ++ d) r k = getitem h r k.
Proof.
  intros H. unfold getitem. rewrite nth_document by exact H. reflexivity.
Qed.

Lemma dict_at_document (h d : heap) (r : ref) :
  r < length h -> dict_at (h ++ d) r = dict_at h r.
Proof.
  intros H. unfold dict_at. rewrite nth_document by exact H. reflexivity.
Qed.

Lemma scalar_at_length (h : heap) (r : ref) :
  scalar_at h r = true -> r < length h.
Proof.
  unfold scalar_at. intros H. apply nth_error_Some.
  destruct (nth_error h r); [discriminate | discriminate H].
Qed.

(** A heap reads as the literal from the literal's top mapping as long
    as the literal's objects are what they were built as. *)
Lemma literal_read (h : heap) (base : nat) :
  (forall i, i < 10 ->
     nth_error h (base + i) = nth_error (default_objects base) i) ->
  forall section key,
    setting (h, default_root base) section key
    = default_setting section key.
Proof.
  intros H section key.
  unfold setting, entry, getitem, default_root, default_setting. cbn -[str].
  rewrite (H 9) by lia. cbn -[str].
  destruct (text_eqb (str "whisper") section); cbn -[str].
  - rewrite (H 3) by lia. cbn -[str].
    destruct (text_eqb (str "model_size") key); cbn -[str].
    { replace base with (base + 0) at 1 by lia.
      rewrite (H 0) by lia. reflexivity. }
    destruct (text_eqb (str "compute_type") key); cbn -[str].
    { rewrite (H 1) by lia. reflexivity. }
    destruct (text_eqb (str "enable_offload") key); cbn -[str].
    { rewrite (H 2) by lia. reflexivity. }
    reflexivity.
  - destruct (text_eqb (str "system") section); cbn -[str]; [|reflexivity].
    rewrite (H 8) by lia. cbn -[str].
    destruct (text_eqb (str "temp_dir") key); cbn -[str].
    { rewrite (H 4) by lia. reflexivity. }
    destruct (text_eqb (str "socket_path") key); cbn -[str].
    { rewrite (H 5) by lia. reflexivity. }
    destruct (text_eqb (str "pid_file") key); cbn -[str].
    { rewrite (H 6) by lia. reflexivity. }
    destruct (text_eqb (str "server_log") key); cbn -[str].
    { rewrite (H 7) by lia. reflexivity. }
    reflexivity.
Qed.


Lemma literal_items (h : heap) :
  items_of (h ++ default_objects (length h)) (default_root (length h))
  = [(str "whisper", length h + 3); (str "system", length h + 8)].
Proof. unfold items_of, default_root. rewrite nth_default. reflexivity. Qed.

Lemma literal_dict (h : heap) (i : nat) :
  i = 3 \/ i = 8 ->
  dict_at (h ++ default_objects (length h)) (length h + i) = true.
Proof.
  intros [-> | ->]; unfold dict_at; rewrite nth_default; reflexivity.
Qed.

(** The first round. *)
Lemma merge_whisper (h : heap) (root : ref) :
  dict_at h root = true ->
  (forall c, getitem h root (str "whisper") = Some c ->
             dict_at h c = true) ->
  exists a l,
    merge_section root (str "whisper", length h + 3)
      (h ++ default_objects (length h))
    = Done (fill (h ++ default_objects (length h)) a l)
    /\ dict_at h a = true
    /\ (getitem h root (str "whisper") = None /\ a = root
        /\ l = [(str "whisper", length h + 3)]
        \/ getitem h root (str "whisper") = Some a
           /\ l = whisper_items (length h)).
Proof.
  intros Hroot Hw. pose proof (dict_at_length h root Hroot) as Hlt.
  destruct (merge_section_dict root (str "whisper") (length h + 3)
              (h ++ default_objects (length h))) as (a & l & E & D & C).
  - rewrite dict_at_document by exact Hlt. exact Hroot.
  - apply literal_dict. now left.
  - rewrite getitem_document by exact Hlt. intros c Hc.
    pose proof (Hw c Hc) as Hd.
    rewrite dict_at_document by (apply dict_at_length; exact Hd). exact Hd.
  - rewrite getitem_document in C by exact Hlt.
    exists a, l. split; [exact E|].
    destruct C as [(C1 & -> & ->) | (C1 & ->)].
    + split; [exact Hroot|]. left. auto.
    + split; [apply Hw; exact C1|]. right. split; [exact C1|].
      unfold items_of. rewrite nth_default. reflexivity.
Qed.

(** The second round, behind the writes of the first. *)
Lemma merge_system (h : heap) (root a1 : ref) (l1 : list (text * ref)) :
  dict_at h root = true ->
  dict_at h a1 = true ->
  lookup (str "system") l1 = None ->
  (forall c, getitem h root (str "system") = Some c ->
             dict_at h c = true) ->
  exists a l,
    merge_section root (str "system", length h + 8)
      (fill (h ++ default_objects (length h)) a1 l1)
    = Done (fill (fill (h ++ default_objects (length h)) a1 l1) a l)
    /\ dict_at h a = true
    /\ (getitem h root (str "system") = None /\ a = root
        /\ l = [(str "system", length h + 8)]
        \/ getitem h root (str "system") = Some a
           /\ l = system_items (length h)).
Proof.
  intros Hroot Ha1 Hl1 Hs.
  pose proof (dict_at_length h root Hroot) as Hlt.
  pose proof (dict_at_length h a1 Ha1) as Hlt1.
  set (h1 := h ++ default_objects (length h)).
  assert (Hd1 : dict_at h1 a1 = true).
  { unfold h1. rewrite dict_at_document by exact Hlt1. exact Ha1. }
  assert (G : getitem (fill h1 a1 l1) root (str "system")
              = getitem h root (str "system")).
  { rewrite getitem_fill by exact Hd1. unfold h1.
    rewrite getitem_document by exact Hlt.
    destruct (getitem h root (str "system")); [reflexivity|].
    rewrite Hl1. destruct (root =? a1); reflexivity. }
  destruct (merge_section_dict root (str "system") (length h + 8)
              (fill h1 a1 l1)) as (a & l & E & D & C).
  - rewrite dict_at_fill. unfold h1.
    rewrite dict_at_document by exact Hlt. exact Hroot.
  - rewrite dict_at_fill. apply literal_dict. now right.
  - rewrite G. intros c Hc. pose proof (Hs c Hc) as Hd.
    rewrite dict_at_fill. unfold h1.
    rewrite dict_at_document by (apply dict_at_length; exact Hd). exact Hd.
  - rewrite G in C. exists a, l. split; [exact E|].
    destruct C as [(C1 & -> & ->) | (C1 & ->)].
    + split; [exact Hroot|]. left. auto.
    + split; [apply Hs; exact C1|]. right. split; [exact C1|].
      unfold items_of. rewrite nth_error_fill_other by lia.
      unfold h1. rewrite nth_default. reflexivity.
Qed.


(** A document that is a mapping, with sections that are mappings where
    they are there, is merged by two rounds of writes. *)
Lemma load_config_merged (h : heap) (root : ref) :
  dict_at h root = true ->
  (forall c, getitem h root (str "whisper") = Some c ->
             dict_at h c = true) ->
  (forall c, getitem h root (str "system") = Some c ->
             dict_at h c = true) ->
  exists a1 l1 a2 l2,
    load_config (Loaded h root)
    = (fill (fill (h ++ default_objects (length h)) a1 l1) a2 l2, root)
    /\ dict_at h a1 = true
    /\ dict_at h a2 = true
    /\ (getitem h root (str "whisper") = None /\ a1 = root
        /\ l1 = [(str "whisper", length h + 3)]
        \/ getitem h root (str "whisper") = Some a1
           /\ l1 = whisper_items (length h))
    /\ (getitem h root (str "system") = None /\ a2 = root
        /\ l2 = [(str "system", length h + 8)]
        \/ getitem h root (str "system") = Some a2
           /\ l2 = system_items (length h)).
Proof.
  intros Hroot Hw Hs.
  destruct (merge_whisper h root Hroot Hw) as (a1 & l1 & E1 & D1 & C1).
  assert (Hl1 : lookup (str "system") l1 = None).
  { destruct C1 as [(_ & _ & ->) | (_ & ->)]; reflexivity. }
  destruct (merge_system h root a1 l1 Hroot D1 Hl1 Hs)
    as (a2 & l2 & E2 & D2 & C2).
  exists a1, l1, a2, l2.
  unfold load_config. rewrite literal_items. cbn [for_each].
  rewrite E1, E2. auto.
Qed.

Lemma getitem_merged (h : heap) (a1 a2 : ref) (l1 l2 : list (text * ref))
  (r : ref) (k : text) :
  dict_at h a1 = true ->
  dict_at h a2 = true ->
  getitem (fill (fill (h ++ default_objects (length h)) a1 l1) a2 l2) r k
  = match getitem (h ++ default_objects (length h)) r k with
    | Some v => Some v
    | None =>
        match (if r =? a1 then lookup k l1 else None) with
        | Some v => Some v
        | None => if r =? a2 then lookup k l2 else None
        end
    end.
Proof.
  intros D1 D2.
  pose proof (dict_at_length h a1 D1) as L1.
  pose proof (dict_at_length h a2 D2) as L2.
  rewrite getitem_fill
    by (rewrite dict_at_fill, dict_at_document by assumption; exact D2).
  rewrite getitem_fill by (rewrite dict_at_document by assumption; exact D1).
  destruct (getitem (h ++ default_objects (length h)) r k); reflexivity.
Qed.

Lemma nth_merged (h : heap) (a1 a2 : ref) (l1 l2 : list (text * ref))
  (r : ref) :
  r <> a1 -> r <> a2 ->
  nth_error
    (fill (fill (h ++ default_objects (length h)) a1 l1) a2 l2) r
  = nth_error (h ++ default_objects (length h)) r.
Proof.
  intros N1 N2. rewrite !nth_error_fill_other by assumption. reflexivity.
Qed.

Lemma getitem_length (h : heap) (r : ref) (k : text) (v : ref) :
  getitem h r k = Some v -> r < length h.
Proof.
  unfold getitem. intros H. apply nth_error_Some.
  destruct (nth_error h r); [discriminate | discriminate H].
Qed.

Lemma getitem_literal (h : heap) (i : nat) (k : text) :
  getitem (h ++ default_objects (length h)) (length h + i) k
  = match nth_error (default_objects (length h)) i with
    | Some (ODict items) => lookup k items
    | _ => None
    end.
Proof. unfold getitem. rewrite nth_default. reflexivity. Qed.


Lemma default_setting_cases (section key : text) (d : object) :
  default_setting section key = Some d ->
  In (section, key, d)
     [ (str "whisper", str "model_size", OStr (str "large-v3-turbo"));
       (str "whisper", str "compute_type", OStr (str "float32"));
       (str "whisper", str "enable_offload", OBool true);
       (str "system", str "temp_dir", OStr (str "/tmp"));
       (str "system", str "socket_path",
        OStr (str "/tmp/whisper_transcription.sock"));
       (str "system", str "pid_file", OStr (str "/tmp/whisper_server.pid"));
       (str "system", str "server_log",
        OStr (str "/tmp/whisper_server.log")) ].
Proof.
  unfold default_setting. cbn -[str In].
  destruct (text_eqb (str "whisper") section) eqn:Es.
  - apply text_eqb_eq in Es. subst section. cbn -[str In].
    repeat match goal with
           | |- context [text_eqb ?a key] =>
               let E := fresh "E" in
               destruct (text_eqb a key) eqn:E;
               [apply text_eqb_eq in E; subst key; intros [= <-];
                cbn -[str]; tauto|]
           end.
    discriminate.
  - destruct (text_eqb (str "system") section) eqn:Es'; [|discriminate].
    apply text_eqb_eq in Es'. subst section. cbn -[str In].
    repeat match goal with
           | |- context [text_eqb ?a key] =>
               let E := fresh "E" in
               destruct (text_eqb a key) eqn:E;
               [apply text_eqb_eq in E; subst key; intros [= <-];
                cbn -[str]; tauto|]
           end.
    discriminate.
Qed.

(** X21.  The merge.  For a document that is a mapping, whose sections
    [whisper] and [system] are mappings where they are there:
    [load_config] returns the document's own top mapping; no entry of any
    mapping of the document is lost or changed; an entry that a mapping
    of the document gains names an object of the literal; an object that
    is no mapping stays as it is; and each of the seven settings of the
    literal reads as the document has it where the document has it, and
    as the literal has it where it has not.  This holds also where one
    mapping stands under both names or the document contains itself. *)
Theorem load_config_merge (h : heap) (root : ref) :
  dict_at h root = true ->
  (forall c, getitem h root (str "whisper") = Some c ->
             dict_at h c = true) ->
  (forall c, getitem h root (str "system") = Some c ->
             dict_at h c = true) ->
  let c := load_config (Loaded h root) in
  snd c = root
  /\ (forall r k v, getitem h r k = Some v -> getitem (fst c) r k = Some v)
  /\ (forall r k v, r < length h -> getitem (fst c) r k = Some v ->
                    getitem h r k = Some v \/ length h <= v)
  /\ (forall r, r < length h -> dict_at h r = false ->
                nth_error (fst c) r = nth_error h r)
  /\ (forall section key d,
        default_setting section key = Some d ->
        match entry (h, root) section key with
        | Some v => entry c section key = Some v
        | None => setting c section key = Some d
        end).
Proof.
  intros Hroot Hw Hs.
  destruct (load_config_merged h root Hroot Hw Hs)
    as (a1 & l1 & a2 & l2 & E & D1 & D2 & C1 & C2).
  pose proof (dict_at_length h root Hroot) as Lr.
  pose proof (dict_at_length h a1 D1) as L1.
  pose proof (dict_at_length h a2 D2) as L2.
  cbv zeta. rewrite E. cbn [fst snd].
  assert (Keep : forall r k v,
             getitem h r k = Some v ->
             getitem (fill (fill (h ++ default_objects (length h)) a1 l1)
                        a2 l2) r k = Some v).
  { intros r k v H. rewrite getitem_merged by assumption.
    rewrite getitem_document by (apply (getitem_length h r k v H)).
    rewrite H. reflexivity. }
  split; [reflexivity|]. split; [exact Keep|]. split; [|split].
  - intros r k v Hr. rewrite getitem_merged by assumption.
    rewrite getitem_document by exact Hr.
    destruct (getitem h r k) as [v0|]; [intros [= <-]; now left|].
    intros H. right.
    assert (B : forall l,
              l = l1 \/ l = l2 -> lookup k l = Some v -> length h <= v).
    { intros l Hl.
      assert (Hl' : l = [(str "whisper", length h + 3)]
                    \/ l = whisper_items (length h)
                    \/ l = [(str "system", length h + 8)]
                    \/ l = system_items (length h)).
      { destruct Hl as [-> | ->].
        - destruct C1 as [(_ & _ & ->) | (_ & ->)]; auto.
        - destruct C2 as [(_ & _ & ->) | (_ & ->)]; auto. }
      destruct Hl' as [-> | [-> | [-> | ->]]]; cbn -[str];
        repeat match goal with
               | |- context [text_eqb ?a k] => destruct (text_eqb a k)
               end;
        intros [= <-]; lia. }
    destruct (r =? a1).
    + destruct (lookup k l1) as [v1|] eqn:E1.
      * injection H as <-. apply (B l1); auto.
      * destruct (r =? a2); [|discriminate]. apply (B l2); auto.
    + destruct (r =? a2); [|discriminate]. apply (B l2); auto.
  - intros r Hr Hd. rewrite nth_merged by congruence.
    apply nth_document. exact Hr.
  - intros section key d Hd.
    destruct (entry (h, root) section key) as [v|] eqn:He.
    { unfold entry in *. cbn [fst snd] in *.
      destruct (getitem h root section) as [s0|] eqn:Hs0; [|discriminate].
      rewrite (Keep root section s0 Hs0). apply Keep. exact He. }
    apply default_setting_cases in Hd.
    unfold setting, entry in *. cbn [fst snd] in *.
    cbn -[str] in Hd.
    destruct Hd as [Hd | [Hd | [Hd | [Hd | [Hd | [Hd | [Hd | []]]]]]]];
      apply pair_equal_spec in Hd; destruct Hd as [Hd <-];
      apply pair_equal_spec in Hd; destruct Hd as [<- <-];
      destruct C1 as [(G1 & -> & ->) | (G1 & ->)];
      destruct C2 as [(G2 & -> & ->) | (G2 & ->)];
      rewrite ?G1, ?G2 in He;
      repeat first
        [ rewrite getitem_merged by assumption
        | rewrite getitem_document by assumption
        | rewrite getitem_literal
        | rewrite G1 | rewrite G2 | rewrite He
        | rewrite Nat.eqb_refl
        | match goal with
          | |- context [lookup ?k ?l] =>
              let r := eval cbn in (lookup k l) in
              change (lookup k l) with r
          | |- context [nth_error (default_objects ?b) ?i] =>
              let r := eval cbn -[str] in (nth_error (default_objects b) i) in
              change (nth_error (default_objects b) i) with r
          end
        | progress cbv iota beta
        | match goal with
          | |- context [?x =? ?y] => destruct (x =? y)
          end ];
      rewrite nth_merged by lia;
      first [rewrite nth_default | rewrite nth_default_first]; reflexivity.
Qed.


(** A document that is no mapping: the first round raises, and nothing
    is written. *)
Lemma merge_section_nondict (config : ref) (key : text) (value : ref)
  (h : heap) :
  dict_at h config = false ->
  dict_at h value = true ->
  items_of h value <> [] ->
  merge_section config (key, value) h = Raised h.
Proof.
  intros Hc Hv Hne. unfold merge_section, contains, setitem.
  unfold dict_at in Hc.
  destruct (dict_at_items h value Hv) as [its Hvi].
  destruct (nth_error h config) as [[items|elems|s0|b0|]|] eqn:Ec;
    try discriminate; try reflexivity.
  - match goal with |- context [existsb ?f elems] =>
      destruct (existsb f elems) end; [|reflexivity]. rewrite Hvi.
    destruct (items_of h value) as [|[sk sv] items]; [contradiction|].
    cbn [for_each]. unfold merge_subkey, getitem. rewrite Ec. reflexivity.
  - destruct (is_substring key s0); [|reflexivity]. rewrite Hvi.
    destruct (items_of h value) as [|[sk sv] items]; [contradiction|].
    cbn [for_each]. unfold merge_subkey, getitem. rewrite Ec. reflexivity.
Qed.

(** A section that is a sequence or a string is only read. *)
Lemma merge_subkeys_readonly (config : ref) (key : text) (c : ref)
  (items : list (text * ref)) (h : heap) :
  getitem h config key = Some c ->
  dict_at h c = false ->
  for_each (merge_subkey config key) items h = Done h
  \/ for_each (merge_subkey config key) items h = Raised h.
Proof.
  intros Hg Hd. induction items as [|[sk sv] items IH].
  - now left.
  - assert (E : merge_subkey config key (sk, sv) h = Done h
                \/ merge_subkey config key (sk, sv) h = Raised h).
    { unfold merge_subkey. rewrite Hg.
      unfold contains, setitem. unfold dict_at in Hd.
      destruct (nth_error h c) as [[its|elems|s0|b0|]|];
        try discriminate; try (now right).
      + match goal with |- context [existsb ?f elems] =>
          destruct (existsb f elems) end; [now left | now right].
      + destruct (is_substring sk s0); [now left | now right]. }
    cbn [for_each]. destruct E as [-> | ->]; [exact IH | now right].
Qed.

(** The first round on a document that is a mapping, whatever the
    section is. *)
Lemma merge_whisper_any (h : heap) (root : ref) :
  dict_at h root = true ->
  (forall c, getitem h root (str "whisper") = Some c -> c < length h) ->
  merge_section root (str "whisper", length h + 3)
    (h ++ default_objects (length h))
  = Raised (h ++ default_objects (length h))
  \/ exists a l,
       merge_section root (str "whisper", length h + 3)
         (h ++ default_objects (length h))
       = Done (fill (h ++ default_objects (length h)) a l)
       /\ dict_at h a = true
       /\ lookup (str "system") l = None.
Proof.
  intros Hroot Hin.
  pose proof (dict_at_length h root Hroot) as Lr.
  destruct (getitem h root (str "whisper")) as [c|] eqn:Hg.
  - destruct (dict_at h c) eqn:Hd.
    + right.
      destruct (merge_whisper h root Hroot) as (a & l & E & D & C).
      { intros c' Hc'. congruence. }
      exists a, l. split; [exact E|]. split; [exact D|].
      destruct C as [(_ & _ & ->) | (_ & ->)]; reflexivity.
    + pose proof (Hin c eq_refl) as Lc.
      unfold merge_section.
      rewrite contains_dict
        by (rewrite dict_at_document by exact Lr; exact Hroot).
      rewrite getitem_document by exact Lr. rewrite Hg.
      rewrite nth_default. cbn -[str for_each].
      destruct (merge_subkeys_readonly root (str "whisper") c
                  (items_of (h ++ default_objects (length h))
                     (length h + 3))
                  (h ++ default_objects (length h))) as [E | E].
      * rewrite getitem_document by exact Lr. exact Hg.
      * rewrite dict_at_document by exact Lc. exact Hd.
      * right. exists root, []. rewrite E. auto.
      * left. exact E.
  - right.
    destruct (merge_whisper h root Hroot) as (a & l & E & D & C).
    { intros c' Hc'. congruence. }
    exists a, l. split; [exact E|]. split; [exact D|].
    destruct C as [(_ & _ & ->) | (_ & ->)]; reflexivity.
Qed.

Lemma literal_kept (h : heap) (a : ref) (l : list (text * ref)) (i : nat) :
  a < length h ->
  nth_error (fill (h ++ default_objects (length h)) a l) (length h + i)
  = nth_error (default_objects (length h)) i.
Proof.
  intros H. rewrite nth_error_fill_other by lia. apply nth_default.
Qed.

(** X22.  The fallback.  Without a file, with a file that cannot be
    opened or parsed, and with a document that is no mapping (an empty
    file, a scalar, a string, a sequence), every setting reads as the
    literal has it, and a name outside the literal reads as nothing. *)
Theorem load_config_defaults (file : config_file) :
  file = Missing \/ file = Unloadable
  \/ (exists h root, file = Loaded h root
                     /\ root < length h /\ dict_at h root = false) ->
  forall section key,
    setting (load_config file) section key = default_setting section key.
Proof.
  intros [-> | [-> | (h & root & -> & Hr & Hd)]] section key.
  - apply (literal_read (default_objects 0) 0). reflexivity.
  - apply (literal_read (default_objects 0) 0). reflexivity.
  - unfold load_config. rewrite literal_items. cbn [for_each].
    rewrite merge_section_nondict.
    + apply literal_read. intros i _. apply nth_default.
    + rewrite dict_at_document by exact Hr. exact Hd.
    + apply literal_dict. now left.
    + unfold items_of. rewrite nth_default. discriminate.
Qed.

(** X23.  A section with nothing in it discards the file.  If the
    document is a mapping in which [whisper] or [system] is there but is
    null, a number, a truth value or another scalar that is no string,
    then every setting reads as the literal has it: what the document
    says in its other section is dropped with it. *)
Theorem load_config_scalar_section (h : heap) (root : ref) :
  dict_at h root = true ->
  (forall c, getitem h root (str "whisper") = Some c -> c < length h) ->
  (exists c, (getitem h root (str "whisper") = Some c
              \/ getitem h root (str "system") = Some c)
             /\ scalar_at h c = true) ->
  forall section key,
    setting (load_config (Loaded h root)) section key
    = default_setting section key.
Proof.
  intros Hroot Hin (c & Hc & Hsc) section key.
  pose proof (dict_at_length h root Hroot) as Lr.
  pose proof (scalar_at_length h c Hsc) as Lc.
  set (h1 := h ++ default_objects (length h)).
  assert (R1 : dict_at h1 root = true).
  { unfold h1. rewrite dict_at_document by exact Lr. exact Hroot. }
  assert (S1 : scalar_at h1 c = true).
  { unfold scalar_at, h1. rewrite nth_document by exact Lc. exact Hsc. }
  unfold load_config. rewrite literal_items. cbn [for_each]. fold h1.
  destruct Hc as [Hc | Hc].
  - rewrite (merge_section_scalar root (str "whisper") (length h + 3) c).
    + apply literal_read. intros i _. apply nth_default.
    + exact R1.
    + apply literal_dict. now left.
    + unfold items_of, h1. rewrite nth_default. discriminate.
    + unfold h1. rewrite getitem_document by exact Lr. exact Hc.
    + exact S1.
  - destruct (merge_whisper_any h root Hroot Hin)
      as [E | (a & l & E & D & Hl)]; fold h1 in E; rewrite E.
    + apply literal_read. intros i _. apply nth_default.
    + pose proof (dict_at_length h a D) as La.
      assert (Da : dict_at h1 a = true).
      { unfold h1. rewrite dict_at_document by exact La. exact D. }
      rewrite (merge_section_scalar root (str "system") (length h + 8) c).
      * apply literal_read. intros i _. apply literal_kept. exact La.
      * rewrite dict_at_fill. exact R1.
      * rewrite dict_at_fill. apply literal_dict. now right.
      * unfold items_of. unfold h1. rewrite literal_kept by exact La.
        discriminate.
      * rewrite getitem_fill by exact Da. unfold h1.
        rewrite getitem_document by exact Lr. rewrite Hc. reflexivity.
      * unfold scalar_at. rewrite nth_error_fill_other.
        -- exact S1.
        -- intros ->. unfold scalar_at in Hsc. unfold dict_at in D.
           destruct (nth_error h a) as [[| | | |]|]; discriminate.
Qed.

End ConfigFacts.

Lemma load_config_merge_witness :
  Config.entry
    (Config.load_config (Config.Loaded Documents.shared_sections 2))
    (str "whisper") (str "model_size")
  = Some 0
  /\ Config.setting
       (Config.load_config (Config.Loaded Documents.shared_sections 2))
       (str "whisper") (str "compute_type")
     = Some (Config.OStr (str "float32"))
  /\ Config.setting
       (Config.load_config (Config.Loaded Documents.shared_sections 2))
       (str "system") (str "temp_dir")
     = Some (Config.OStr (str "/tmp")).
Proof.
  destruct (load_config_merge Documents.shared_sections 2)
    as (_ & _ & _ & _ & H).
  - reflexivity.
  - intros c [= <-]. reflexivity.
  - intros c [= <-]. reflexivity.
  - split; [|split].
    + exact (H (str "whisper") (str "model_size")
               (Config.OStr (str "large-v3-turbo")) eq_refl).
    + exact (H (str "whisper") (str "compute_type")
               (Config.OStr (str "float32")) eq_refl).
    + exact (H (str "system") (str "temp_dir")
               (Config.OStr (str "/tmp")) eq_refl).
Defined.

Lemma load_config_defaults_witness :
  Config.setting (Config.load_config (Config.Loaded Documents.empty_document 0))
    (str "whisper") (str "model_size")
  = Some (Config.OStr (str "large-v3-turbo")).
Proof.
  apply (load_config_defaults (Config.Loaded Documents.empty_document 0)).
  right. right. exists Documents.empty_document, 0.
  split; [reflexivity|]. split; [vm_compute; lia | reflexivity].
Defined.

Lemma load_config_scalar_section_witness :
  Config.setting (Config.load_config (Config.Loaded Documents.empty_section 3))
    (str "system") (str "temp_dir")
  = Some (Config.OStr (str "/tmp")).
Proof.
  apply (load_config_scalar_section Documents.empty_section 3).
  - reflexivity.
  - intros c [= <-]. vm_compute. lia.
  - exists 0. split; [left; reflexivity | reflexivity].
Defined.
